(** * pdf_sumary_ai: the chunker and the map-reduce summarizer

    A shallow embedding of [app/services/chunker.py] and
    [app/services/summarizer.py], and the properties of the chunking
    strategy and of the map-reduce orchestration proved about it.

    Python [str] values are lists of Unicode code points.  The language
    model behind [llm.ainvoke] is an oracle over an abstract world, and
    so is the order in which the concurrent calls of an
    [asyncio.gather] are answered; every call that is answered is
    recorded in a trace, together with the records handed to
    [logger.info].  The text splitter of langchain, which the chunker
    calls on a long text, is a parameter of the chunker and of the
    orchestrator.  The splitter and the rate limiter themselves are
    code of langchain that the repository does not hold: they are
    described beside the code that calls them, and what is proved of
    them is marked as such. *)

From Stdlib Require Import String Ascii.
From Stdlib Require Import List Arith Lia NArith Bool.
Import ListNotations.

Set Implicit Arguments.

(* ===================================================================== *)
(** ** Python strings *)
(* ===================================================================== *)

Module PyStr.

(** A character is a Unicode code point, a [str] a sequence of them. *)
Definition char := N.
Definition str := list char.

(** A string literal of the source (all of them are ASCII). *)
Definition lit (s : string) : str :=
  map N_of_ascii (list_ascii_of_string s).

(** The line feed of the escape [\n]. *)
Definition nl : char := 10%N.

(** The code points for which [str.isspace] holds: the characters
    [str.strip()] removes when it is called without argument. *)
Definition whitespace_code_points : list char :=
  [ 9; 10; 11; 12; 13; 28; 29; 30; 31; 32; 133; 160; 5760;
    8192; 8193; 8194; 8195; 8196; 8197; 8198; 8199; 8200; 8201; 8202;
    8232; 8233; 8239; 8287; 12288 ]%N.

Definition isspace (c : char) : bool :=
  existsb (N.eqb c) whitespace_code_points.

(** [s.lstrip()] *)
Fixpoint lstrip (s : str) : str :=
  match s with
  | [] => []
  | c :: s' => if isspace c then lstrip s' else s
  end.

(** [s.rstrip()]: what is left of [s] once its trailing whitespace is
    gone. *)
Fixpoint rstrip (s : str) : str :=
  match s with
  | [] => []
  | c :: s' =>
      match rstrip s' with
      | [] => if isspace c then [] else [c]
      | r => c :: r
      end
  end.

(** [s.strip()] *)
Definition strip (s : str) : str := rstrip (lstrip s).

(** Truth value of a sequence: [not s] is [negb (truthy s)]. *)
Definition truthy {A} (s : list A) : bool :=
  match s with [] => false | _ :: _ => true end.

(** [s[i:j]] for [0 <= i <= j]. *)
Definition slice {A} (l : list A) (i j : nat) : list A :=
  firstn (j - i) (skipn i l).

(** [sep.join(parts)] *)
Fixpoint join (sep : str) (parts : list str) : str :=
  match parts with
  | [] => []
  | [p] => p
  | p :: rest => p ++ sep ++ join sep rest
  end.

(** [range(start, stop, step)] for [step > 0]: CPython computes its
    length as [(stop - start + step - 1) // step]. *)
Fixpoint range_from (count start step : nat) : list nat :=
  match count with
  | 0 => []
  | S count' => start :: range_from count' (start + step) step
  end.

Definition range (start stop step : nat) : list nat :=
  range_from ((stop - start + step - 1) / step) start step.

End PyStr.

Import PyStr.

(* ===================================================================== *)
(** ** app/services/chunker.py *)
(* ===================================================================== *)

Module Chunker.

Definition CHUNK_SIZE : nat := 4000.
Definition CHUNK_OVERLAP : nat := 200.

(** The separators handed to the splitter:
    ["\n\n", "\n", ". ", ", ", " ", ""]. *)
Definition separators : list str :=
  [ [nl; nl]; [nl]; lit ". "; lit ", "; lit " "; [] ].

(** The splitter of the package langchain_text_splitters is not among
    the sources.  The spec says of it that it splits recursively on a
    prioritized list of separators, down to the character boundary, and
    packs the pieces into chunks of at most [chunk_size] characters that
    overlap by at most [overlap] characters.  [is_prefix], [occurs],
    [split_keep], [chars], [_join_docs], [pop], [_merge_splits],
    [good_and_long], [_split_text] and [recursive_split_text] below fill
    this in the way the package does it when it is built as
    [chunker.py] builds it, with [keep_separator] and [strip_whitespace]
    left at their defaults: a separator opens the piece that follows it,
    and every chunk is trimmed. *)

(** Modelled from the spec: whether a text starts with a separator,
    of which the sources have no code. *)
Fixpoint is_prefix (p s : str) : bool :=
  match p, s with
  | [], _ => true
  | _ :: _, [] => false
  | a :: p', b :: s' => N.eqb a b && is_prefix p' s'
  end.

(** Modelled from the spec: whether a separator is found in a text, of
    which the sources have no code. *)
Fixpoint occurs (sep text : str) : bool :=
  match text with
  | [] => is_prefix sep []
  | _ :: text' => is_prefix sep text || occurs sep text'
  end.

(** Modelled from the spec: the piece read so far, of which the
    sources have no code; it is held reversed, and is left out when it
    is empty. *)
Definition piece (acc : str) : list str :=
  match acc with
  | [] => []
  | _ :: _ => [rev_append acc []]
  end.

(** Modelled from the spec: the split of a text on one separator that
    is not empty, of which the sources have no code.  The text is read
    from left to right; where the separator is found a piece ends, and
    the separator opens the next piece; [skip] counts the characters of
    a separator just found that are still to be read.  No piece is
    empty. *)
Fixpoint split_keep (sep : str) (skip : nat) (acc text : str)
  : list str :=
  match text with
  | [] => piece acc
  | c :: text' =>
      match skip with
      | S skip' => split_keep sep skip' (c :: acc) text'
      | 0 =>
          if is_prefix sep text
          then piece acc ++ split_keep sep (length sep - 1) [c] text'
          else split_keep sep 0 (c :: acc) text'
      end
  end.

(** Modelled from the spec: the split on the empty separator, of
    which the sources have no code: at the character boundary every
    character is a piece. *)
Definition chars (text : str) : list str := map (fun c => [c]) text.

(** Modelled from the spec: the text of a chunk, of which the sources
    have no code: the pieces joined and trimmed; a chunk that would be
    empty is left out. *)
Definition _join_docs (docs : list str) : list str :=
  let text := strip (concat docs) in
  match text with
  | [] => []
  | _ :: _ => [text]
  end.

(** Modelled from the spec: the overlap of adjacent chunks, of which
    the sources have no code.  Once a chunk is closed, its pieces are
    dropped from the front for as long as more than [overlap]
    characters are left, or the piece of [len] characters to come does
    not fit; what is left opens the next chunk.  [total] counts the
    characters of [current_doc]; with no piece left it is 0 and the
    test fails. *)
Fixpoint pop (chunk_size overlap len total : nat) (current_doc : list str)
  : nat * list str :=
  if (overlap <? total) || ((chunk_size <? total + len) && (0 <? total))
  then
    match current_doc with
    | [] => (total, [])
    | d :: current_doc' =>
        pop chunk_size overlap len (total - length d) current_doc'
    end
  else (total, current_doc).

(** Modelled from the spec: the packing of pieces into chunks, of which
    the sources have no code.  The pieces are taken in order;
    [current_doc] holds the pieces of the chunk being filled and [total]
    their characters; the chunk is closed when the next piece would
    make it longer than [chunk_size]. *)
Fixpoint _merge_splits (chunk_size overlap : nat) (splits : list str)
  (current_doc : list str) (total : nat) : list str :=
  match splits with
  | [] => _join_docs current_doc
  | d :: splits' =>
      if chunk_size <? total + length d then
        match current_doc with
        | [] =>
            _merge_splits chunk_size overlap splits' [d] (total + length d)
        | _ :: _ =>
            let (total', current_doc') :=
              pop chunk_size overlap (length d) total current_doc in
            _join_docs current_doc
            ++ _merge_splits chunk_size overlap splits'
                 (current_doc' ++ [d]) (total' + length d)
        end
      else
        _merge_splits chunk_size overlap splits'
          (current_doc ++ [d]) (total + length d)
  end.

Section Level.

Variables chunk_size overlap : nat.

(** The split of a piece that is too long on the separators that are
    left, when there are any. *)
Variable deeper : option (str -> list str).

(** Modelled from the spec: the chunks of the pieces gathered in
    [_good_splits], of which the sources have no code. *)
Definition merged (_good_splits : list str) : list str :=
  match _good_splits with
  | [] => []
  | _ :: _ => _merge_splits chunk_size overlap _good_splits [] 0
  end.

(** Modelled from the spec: the pieces of one separator turned into
    chunks, of which the sources have no code.  Pieces shorter than
    [chunk_size] are gathered and packed together; a piece that is not
    is split on the separators that are left, and stays whole when
    there is none. *)
Fixpoint good_and_long (_good_splits splits : list str) : list str :=
  match splits with
  | [] => merged _good_splits
  | s :: splits' =>
      if length s <? chunk_size
      then good_and_long (_good_splits ++ [s]) splits'
      else
        merged _good_splits
        ++ match deeper with
           | None => [s]
           | Some _split_text => _split_text s
           end
        ++ good_and_long [] splits'
  end.

End Level.

(** Modelled from the spec: the recursive descent through the
    prioritized separators, of which the sources have no code.  The
    first separator that is found in the text, or that is empty, is the
    one the text is split on; the separators after it are kept for the
    pieces that are too long.  When none is found the text stays
    whole. *)
Fixpoint _split_text (chunk_size overlap : nat) (separators : list str)
  (text : str) : list str :=
  match separators with
  | [] => good_and_long chunk_size overlap None [] (piece (rev text))
  | separator :: new_separators =>
      match separator with
      | [] => good_and_long chunk_size overlap None [] (chars text)
      | _ :: _ =>
          if occurs separator text then
            good_and_long chunk_size overlap
              match new_separators with
              | [] => None
              | _ :: _ =>
                  Some (_split_text chunk_size overlap new_separators)
              end
              [] (split_keep separator 0 [] text)
          else _split_text chunk_size overlap new_separators text
      end
  end.

(** Modelled from the spec: [RecursiveCharacterTextSplitter.split_text]
    of the package langchain_text_splitters, which is not among the
    sources.  The spec describes it so: the text is split recursively on
    a prioritized list of separators, the earliest separator is
    preferred and the next one is used only for a piece that is still
    too long, the character boundary being the last resort; adjacent
    chunks overlap by at most [overlap] characters.  With no separator
    given, the package splits on its own list of four. *)
Definition recursive_split_text
  (chunk_size overlap : nat) (seps : list str) (text : str) : list str :=
  _split_text chunk_size overlap
    match seps with
    | [] => [ [nl; nl]; [nl]; lit " "; [] ]
    | _ :: _ => seps
    end
    text.

(** [Covering overlap text chunks]: the chunks are consecutive windows
    of [text] from its first character to its last; each one starts
    after the start of the one before it, at most [overlap] characters
    before its end and never past it, so that no character is left out. *)
Inductive Covering (overlap : nat) : str -> list str -> Prop :=
| cover_last (text : str) : Covering overlap text [text]
| cover_step (a b rest : str) (chunks : list str) :
    a <> [] ->
    length b <= overlap ->
    Covering overlap (b ++ rest) chunks ->
    Covering overlap (a ++ b ++ rest) ((a ++ b) :: chunks).

(** [Spans overlap text chunks]: the chunks are windows of [text], in
    the order of the text; a chunk starts no earlier than the one
    before it, and at most [overlap] characters before its end; what
    lies before the first chunk, between a chunk and the next one that
    does not touch it, and after the last chunk is whitespace. *)
Inductive Spans (overlap : nat) : str -> list str -> Prop :=
| spans_end (gap : str) :
    forallb isspace gap = true -> Spans overlap gap []
| spans_skip (gap text : str) (chunks : list str) :
    forallb isspace gap = true ->
    Spans overlap text chunks ->
    Spans overlap (gap ++ text) chunks
| spans_step (a b rest : str) (chunks : list str) :
    a ++ b <> [] ->
    length b <= overlap ->
    Spans overlap (b ++ rest) chunks ->
    Spans overlap (a ++ b ++ rest) ((a ++ b) :: chunks).

(** A chunk that starts with a character that is not whitespace. *)
Definition starts_black (chunk : str) : Prop :=
  exists c r, chunk = c :: r /\ isspace c = false.

Section WithSplitter.

(** [RecursiveCharacterTextSplitter(chunk_size, chunk_overlap,
    separators, length_function=len).split_text] of the package
    langchain_text_splitters, which the repository imports. *)
Variable split_text : nat -> nat -> list str -> str -> list str.

Definition split_text_into_chunks (text : str) : list str :=
  if negb (truthy text) || negb (truthy (strip text)) then []
  else
    let text := strip text in
    if length text <=? CHUNK_SIZE then [text]
    else split_text CHUNK_SIZE CHUNK_OVERLAP separators text.

Definition get_chunk_count (text : str) : nat :=
  length (split_text_into_chunks text).

End WithSplitter.

End Chunker.


(* ===================================================================== *)
(** ** app/services/summarizer.py *)
(* ===================================================================== *)

Module Summarizer.

Import Chunker.

(** The two message classes of langchain_core the module builds. *)
Inductive message : Type :=
| SystemMessage (content : str)
| HumanMessage (content : str).

(** The records the module hands to [logger.info], with the fields
    their f-strings interpolate. *)
Inductive log_record : Type :=
| DocumentSplit (chunk_count : nat)
    (* "Document split into {chunk_count} chunks" *)
| SingleChunk
    (* "Single chunk - direct summarization" *)
| MapReduce (chunk_count : nat)
    (* "Map-Reduce: summarizing {chunk_count} chunks in parallel" *)
| HierarchicalReduce (summaries batch_size : nat)
    (* "Hierarchical reduce: {len(chunk_summaries)} -> batches of
        {max_summaries_per_reduce}" *)
| FinalReduce.
    (* "Final reduce step" *)

(** What awaiting [llm.ainvoke] gives back: a response with its
    [content], or a raised exception. *)
Inductive outcome (Exn : Type) : Type :=
| Content (content : str)
| Raised (e : Exn).
Arguments Content {Exn} content.
Arguments Raised {Exn} e.

Inductive event (Exn : Type) : Type :=
| Invoke (messages : list message) (response : outcome Exn)
| Logged (record : log_record).
Arguments Invoke {Exn} messages response.
Arguments Logged {Exn} record.

(** How a coroutine ends.  [OutOfFuel] is the model's mark for a
    [while] loop cut short by its fuel; no Python run ends so. *)
Inductive result (Exn A : Type) : Type :=
| Return (a : A)
| Raise (e : Exn)
| OutOfFuel.
Arguments Return {Exn A} a.
Arguments Raise {Exn A} e.
Arguments OutOfFuel {Exn A}.

Record state (World Exn : Type) : Type := mkState {
  world : World;
  trace : list (event Exn)
}.

(** Prompts *)
Definition MAP_SYSTEM : str :=
  lit "You are a document summarizer. Summarize the following section of a document."
  ++ [nl] ++
  lit "Focus on key points, main ideas, and important details."
  ++ [nl] ++
  lit "Keep the summary concise but informative.".

Definition REDUCE_SYSTEM : str :=
  lit "You are a document summarizer. You are given summaries of different sections from a single document."
  ++ [nl] ++
  lit "Combine these into one coherent, well-structured summary."
  ++ [nl] ++
  lit "Use markdown formatting for better readability."
  ++ [nl] ++
  lit "Highlight the most important points and maintain logical flow.".

(** The messages [_summarize_chunk] sends. *)
Definition map_messages (chunk : str) : list message :=
  [ SystemMessage MAP_SYSTEM;
    HumanMessage (lit "Summarize this section:" ++ [nl; nl] ++ chunk) ].

(** The messages [_combine_summaries] sends. *)
Definition reduce_messages (summaries : list str) : list message :=
  let combined_text :=
    join ([nl; nl] ++ lit "---" ++ [nl; nl]) summaries in
  [ SystemMessage REDUCE_SYSTEM;
    HumanMessage
      (lit "Combine these section summaries into a final summary:"
       ++ [nl; nl] ++ combined_text) ].

Definition max_summaries_per_reduce : nat := 10.

(** The list comprehension of the reduce loop:
    [[chunk_summaries[i:i + max_summaries_per_reduce]
      for i in range(0, len(chunk_summaries), max_summaries_per_reduce)]] *)
Definition batches_of (chunk_summaries : list str) : list (list str) :=
  map (fun i => slice chunk_summaries i (i + max_summaries_per_reduce))
      (range 0 (length chunk_summaries) max_summaries_per_reduce).

(** The calls recorded in a trace with their answers, in the order
    they were issued, and the exceptions among their outcomes. *)
Fixpoint calls {Exn} (tr : list (event Exn))
  : list (list message * outcome Exn) :=
  match tr with
  | [] => []
  | Invoke m r :: tr' => (m, r) :: calls tr'
  | Logged _ :: tr' => calls tr'
  end.

Fixpoint errors {Exn} (tr : list (event Exn)) : list Exn :=
  match tr with
  | [] => []
  | Invoke _ (Raised e) :: tr' => e :: errors tr'
  | _ :: tr' => errors tr'
  end.

(** The [summaries] fields of the "Hierarchical reduce" records of a
    trace: one per pass of the [while] loop. *)
Fixpoint passes {Exn} (tr : list (event Exn)) : list nat :=
  match tr with
  | [] => []
  | Logged (HierarchicalReduce n _) :: tr' => n :: passes tr'
  | _ :: tr' => passes tr'
  end.

(** The "Final reduce step" records of a trace. *)
Fixpoint finals {Exn} (tr : list (event Exn)) : nat :=
  match tr with
  | [] => 0
  | Logged FinalReduce :: tr' => S (finals tr')
  | _ :: tr' => finals tr'
  end.

(** The trace of a sequence of calls and their outcomes. *)
Definition invocations {Exn}
  (prompts : list (list message)) (rs : list (outcome Exn))
  : list (event Exn) :=
  map (fun pr => Invoke (fst pr) (snd pr)) (combine prompts rs).

(** The calls of a fan-out that were answered when the awaiting
    coroutine went on, in the order they were issued: [seen] holds the
    answer to each prompt, or [None] for a call still pending then. *)
Definition observed {Exn}
  (prompts : list (list message)) (seen : list (option (outcome Exn)))
  : list (event Exn) :=
  flat_map (fun ps => match snd ps with
                      | Some r => [Invoke (fst ps) r]
                      | None => []
                      end)
           (combine prompts seen).

(** [n / k] rounded up. *)
Definition ceil_div (n k : nat) : nat := (n + k - 1) / k.

(** [reduction_chain n logged last]: the counts [logged] by the passes
    of a loop entered with [n] summaries, and the count [last] it is left
    with: a pass is made of more than [max_summaries_per_reduce]
    summaries, logs the count it finds and leaves
    [ceil_div n max_summaries_per_reduce] summaries, fewer than it
    found; the loop is left with at most [max_summaries_per_reduce]. *)
Fixpoint reduction_chain (n : nat) (logged : list nat) (last : nat)
  : Prop :=
  match logged with
  | [] => last = n /\ n <= max_summaries_per_reduce
  | m :: logged' =>
      m = n /\
      max_summaries_per_reduce < n /\
      ceil_div n max_summaries_per_reduce < n /\
      reduction_chain (ceil_div n max_summaries_per_reduce) logged' last
  end.

Section Orchestrator.

Variables World Exn : Type.

(** [llm.ainvoke]: the answer to a list of messages, and the world
    after the call. *)
Variable ainvoke : list message -> World -> outcome Exn * World.

(** The order in which the awaitables of an [asyncio.gather] end, as
    the event loop, the rate limiter and the network have it: with [n]
    awaitables still pending in the world [w], the next one to end is
    the pending one of number [next_done w n] modulo [n], counted in the
    order they were handed to [gather]. *)
Variable next_done : World -> nat -> nat.

(** The langchain splitter [Chunker.split_text_into_chunks] calls. *)
Variable split_text : nat -> nat -> list str -> str -> list str.

(** Coroutines: state passing with exceptions. *)
Definition M (A : Type) : Type :=
  state World Exn -> result Exn A * state World Exn.

Definition ret {A} (a : A) : M A := fun s => (Return a, s).

Definition bind {A B} (m : M A) (k : A -> M B) : M B :=
  fun s =>
    match m s with
    | (Return a, s') => k a s'
    | (Raise e, s') => (Raise e, s')
    | (OutOfFuel, s') => (OutOfFuel, s')
    end.

Definition record (ev : event Exn) : M unit :=
  fun s => (Return tt, mkState (world s) (trace s ++ [ev])).

Definition logger_info (r : log_record) : M unit := record (Logged r).

(** Awaiting a call: its content, or its exception raised here. *)
Definition result_of (response : outcome Exn) : result Exn str :=
  match response with
  | Content c => Return c
  | Raised e => Raise e
  end.

(** [response = await llm.ainvoke(messages); response.content] *)
Definition llm_ainvoke (messages : list message) : M str :=
  fun s =>
    let (response, w) := ainvoke messages (world s) in
    (result_of response,
     mkState w (trace s ++ [Invoke messages response])).

(** An awaitable handed to [asyncio.gather]: still pending, or ended
    with its result and the events it recorded. *)
Inductive slot (A : Type) : Type :=
| Pending (aw : M A)
| Ended (r : result Exn A) (evs : list (event Exn)).
Arguments Pending {A} aw.
Arguments Ended {A} r evs.

Definition events {A} (sl : slot A) : list (event Exn) :=
  match sl with
  | Pending _ => []
  | Ended _ evs => evs
  end.

(** The awaitables still pending. *)
Fixpoint pending {A} (slots : list (slot A)) : nat :=
  match slots with
  | [] => 0
  | Pending _ :: slots' => S (pending slots')
  | Ended _ _ :: slots' => pending slots'
  end.

(** Whether an awaitable has ended other than by a return. *)
Fixpoint failed {A} (slots : list (slot A)) : bool :=
  match slots with
  | [] => false
  | Ended (Return _) _ :: slots' => failed slots'
  | Ended _ _ :: _ => true
  | Pending _ :: slots' => failed slots'
  end.

(** The pending awaitable of number [k] ends: it meets the world as it
    is then, and the events it records are kept beside its result. *)
Fixpoint complete {A} (k : nat) (slots : list (slot A)) (w : World)
  : list (slot A) * World :=
  match slots with
  | [] => ([], w)
  | Pending aw :: slots' =>
      match k with
      | 0 =>
          let (r, s1) := aw (mkState w []) in
          (Ended r (trace s1) :: slots', world s1)
      | S k' =>
          let (slots'', w') := complete k' slots' w in
          (Pending aw :: slots'', w')
      end
  | Ended r evs :: slots' =>
      let (slots'', w') := complete k slots' w in
      (Ended r evs :: slots'', w')
  end.

(** The awaitables end one after the other, in the order [next_done]
    gives, until one of them raises or none is pending. *)
Fixpoint race {A} (fuel : nat) (slots : list (slot A)) (w : World)
  : list (slot A) * World :=
  match fuel with
  | 0 => (slots, w)
  | S fuel' =>
      if failed slots then (slots, w)
      else
        match pending slots with
        | 0 => (slots, w)
        | S n =>
            let (slots', w') :=
              complete (next_done w (S n) mod S n) slots w in
            race fuel' slots' w'
        end
  end.

(** What the coroutine that awaits [gather] gets: the exception of the
    awaitable that raised, or the results in the order of the
    awaitables.  [OutOfFuel] stands for an awaitable left pending with
    none that failed, which [race] never leaves. *)
Fixpoint collect {A} (slots : list (slot A)) : result Exn (list A) :=
  match slots with
  | [] => Return []
  | Ended (Raise e) _ :: _ => Raise e
  | Ended OutOfFuel _ :: _ => OutOfFuel
  | Ended (Return a) _ :: slots' =>
      match collect slots' with
      | Return l => Return (a :: l)
      | Raise e => Raise e
      | OutOfFuel => OutOfFuel
      end
  | Pending _ :: slots' =>
      match collect slots' with
      | Return _ => OutOfFuel
      | Raise e => Raise e
      | OutOfFuel => OutOfFuel
      end
  end.

(** [await asyncio.gather] over the awaitables [aws], with
    [return_exceptions=False].  The awaitables run concurrently and end
    in an order of their own.  When one of them raises, its exception
    is raised at once in the awaiting coroutine: the awaitables still
    pending are not cancelled, but the run goes on without them, so
    their calls have no answer in it.  When all of them return, their
    results come back in the order of [aws].  The trace holds the calls
    that were answered, in the order of [aws]. *)
Definition gather {A} (aws : list (M A)) : M (list A) :=
  fun s =>
    let (slots, w) := race (length aws) (map Pending aws) (world s) in
    (collect slots, mkState w (trace s ++ flat_map events slots)).

Definition _summarize_chunk (chunk : str) : M str :=
  llm_ainvoke (map_messages chunk).

Definition _combine_summaries (summaries : list str) : M str :=
  llm_ainvoke (reduce_messages summaries).

(** A call of a fan-out, with its answer when it has one, as an
    awaitable of [gather]. *)
Definition call_slot (cell : list message * option (outcome Exn))
  : slot str :=
  match snd cell with
  | None => Pending (llm_ainvoke (fst cell))
  | Some r => Ended (result_of r) [Invoke (fst cell) r]
  end.

(** The calls of a fan-out that have no answer yet, and the exceptions
    among the answers. *)
Fixpoint unanswered (cells : list (list message * option (outcome Exn)))
  : nat :=
  match cells with
  | [] => 0
  | (_, None) :: cells' => S (unanswered cells')
  | (_, Some _) :: cells' => unanswered cells'
  end.

Fixpoint raised (cells : list (list message * option (outcome Exn)))
  : list Exn :=
  match cells with
  | [] => []
  | (_, Some (Raised e)) :: cells' => e :: raised cells'
  | _ :: cells' => raised cells'
  end.

(** One pass of the [while] loop of [summarize_text]. *)
Definition reduce_pass (chunk_summaries : list str) : M (list str) :=
  bind (logger_info (HierarchicalReduce (length chunk_summaries)
                                        max_summaries_per_reduce))
       (fun _ =>
  let batches := batches_of chunk_summaries in
  gather (map _combine_summaries batches)).

(** [while len(chunk_summaries) > max_summaries_per_reduce: ...] *)
Fixpoint reduce_loop (fuel : nat) (chunk_summaries : list str)
  : M (list str) :=
  if max_summaries_per_reduce <? length chunk_summaries then
    match fuel with
    | 0 => fun s => (OutOfFuel, s)
    | S fuel' =>
        bind (reduce_pass chunk_summaries) (reduce_loop fuel')
    end
  else ret chunk_summaries.

(** The reduce phase: the loop, then the final step on what is left. *)
Definition reduce_phase (chunk_summaries : list str) : M str :=
  bind (reduce_loop (length chunk_summaries) chunk_summaries)
       (fun chunk_summaries =>
  bind (logger_info FinalReduce) (fun _ =>
  _combine_summaries chunk_summaries)).

Definition no_content : str := lit "No content to summarize.".

Definition summarize_text (text : str) : M str :=
  if negb (truthy text) || negb (truthy (strip text)) then
    ret no_content
  else
    let chunks := split_text_into_chunks split_text text in
    let chunk_count := length chunks in
    bind (logger_info (DocumentSplit chunk_count)) (fun _ =>
    if chunk_count <=? 1 then
      bind (logger_info SingleChunk) (fun _ =>
      _summarize_chunk (if truthy chunks then nth 0 chunks [] else text))
    else
      bind (logger_info (MapReduce chunk_count)) (fun _ =>
      bind (gather (map _summarize_chunk chunks)) reduce_phase)).

(** [ensures m Q]: whatever the state, [m] only adds to the trace; when
    it returns, no call it made has raised and [Q] holds of its value;
    when it raises, the exception is the one a call of its raised, and
    no other call has raised; and it does not run out of fuel. *)
Definition ensures {A} (m : M A) (Q : A -> Prop) : Prop :=
  forall s, exists evs,
    trace (snd (m s)) = trace s ++ evs /\
    match fst (m s) with
    | Return a => errors evs = [] /\ Q a
    | Raise e => errors evs = [e]
    | OutOfFuel => False
    end.

(** A run starts from a world and an empty trace. *)
Definition start (w : World) : state World Exn := mkState w [].

End Orchestrator.

Arguments Pending {World Exn A} aw.
Arguments Ended {World Exn A} r evs.

End Summarizer.

(* ===================================================================== *)
(** ** Stand-ins for the language model, for concrete runs *)
(* ===================================================================== *)

Module Doubles.

Import Summarizer.

(** A model that answers every call; the world counts the calls. *)
Definition steady_llm (messages : list message) (n : nat)
  : outcome nat * nat :=
  (Content (lit "summary"), S n).

(** A model whose call number [k] (from 0) is refused with the status
    code 503, and that answers every other call. *)
Definition flaky_llm (k : nat) (messages : list message) (n : nat)
  : outcome nat * nat :=
  (if n =? k then Raised 503 else Content (lit "summary"), S n).

(** An event loop in which the pending call that was issued first is
    always the next to be answered. *)
Definition in_turn (w n : nat) : nat := 0.

(** An event loop in which the pending call that was issued last is
    always the next to be answered. *)
Definition last_first (w n : nat) : nat := n - 1.

(** A paragraph of 3798 letters, closed by a blank line. *)
Definition paragraph : str := repeat 97%N 3798 ++ [nl; nl].

(** A text of [n] such paragraphs. *)
Definition paragraphs (n : nat) : str := concat (repeat paragraph n).

End Doubles.

(* ===================================================================== *)
(** ** The shared rate limiter *)
(* ===================================================================== *)

Module RateLimiter.

(** [summarizer.py] only builds the limiter,
    [InMemoryRateLimiter(requests_per_second=RATE_LIMIT_RPM / 60.0,
    check_every_n_seconds=0.5, max_bucket_size=1)]; the class is code
    of langchain_core and is not among the sources.  [bucket], [bucket_state],
    [refill], [attempt] and [run] below follow what the spec says of
    it. *)

(** Modelled from the spec: the settings of the token bucket, of which
    the sources have no code: its capacity, in tokens, and its refill
    rate, [rate_num / rate_den] tokens per tick of the clock.  With
    seconds for ticks, the rate of the spec, requests-per-minute / 60
    per second, is [rate_num = RATE_LIMIT_RPM] over [rate_den = 60]. *)
Record bucket : Type := mkBucket {
  capacity : nat;
  rate_num : nat;
  rate_den : nat
}.

(** Modelled from the spec: the shared state of the token bucket, of
    which the sources have no code: the tokens available, the time of
    the last refill, and the number of tokens granted so far.  The
    level is counted in [rate_den]-ths of a token, so that a refill
    over any number of ticks is exact; a token is [rate_den] of
    them. *)
Record bucket_state : Type := mkBucketState {
  level : nat;
  last_refill : nat;
  issued : nat
}.

(** Modelled from the spec: the continuous refill, of which the
    sources have no code: at the time [now] the bucket holds what it
    held, and what the rate gave since the last refill, up to its
    capacity. *)
Definition refill (b : bucket) (st : bucket_state) (now : nat) : nat :=
  Nat.min (capacity b * rate_den b)
          (level st + rate_num b * (now - last_refill st)).

(** Modelled from the spec: one look of a caller at the bucket, of
    which the sources have no code.  The looks of all the callers are
    serialized; a look refills the bucket and, when a whole token is
    there, consumes it: the caller is granted the token, numbered by
    the count of tokens granted before it.  Otherwise the caller has
    to wait and look again. *)
Definition attempt (b : bucket) (st : bucket_state) (now : nat)
  : option nat * bucket_state :=
  let available := refill b st now in
  if rate_den b <=? available
  then (Some (issued st),
        mkBucketState (available - rate_den b) now (S (issued st)))
  else (None, mkBucketState available now (issued st)).

(** Modelled from the spec: an acquisition that completes, of which
    the sources have no code: the caller, the time and the number of
    the token it is granted. *)
Record grant (Caller : Type) : Type := mkGrant {
  caller : Caller;
  time : nat;
  token : nat
}.

(** Modelled from the spec: the bucket under concurrent callers, of
    which the sources have no code.  Callers look at the bucket in some
    interleaving: [looks] holds who looks, and when, in the order the
    looks are serialized.  The result is the acquisitions that
    complete. *)
Fixpoint run {Caller : Type} (b : bucket) (st : bucket_state)
  (looks : list (Caller * nat)) : list (grant Caller) :=
  match looks with
  | [] => []
  | (who, now) :: looks' =>
      match attempt b st now with
      | (Some tok, st') => mkGrant who now tok :: run b st' looks'
      | (None, st') => run b st' looks'
      end
  end.

(** The times of the looks never go back. *)
Fixpoint in_time_order {Caller : Type} (from : nat)
  (looks : list (Caller * nat)) : Prop :=
  match looks with
  | [] => True
  | (_, now) :: looks' => from <= now /\ in_time_order now looks'
  end.

(** The acquisitions that complete in the window of [span] ticks
    that starts at [from]. *)
Definition completed_within {Caller : Type} (from span : nat)
  (grants : list (grant Caller)) : nat :=
  length
    (filter (fun g => (from <=? time g) && (time g <=? from + span))
            grants).

End RateLimiter.

(* ===================================================================== *)
(** ** app/services/summarizer.py: the choice of the language model *)
(* ===================================================================== *)

From Stdlib Require Import ZArith DecimalString.

Module Factory.

(** [a == b] on strings. *)
Fixpoint str_eqb (a b : str) : bool :=
  match a, b with
  | [], [] => true
  | x :: a', y :: b' => N.eqb x y && str_eqb a' b'
  | _, _ => false
  end.

Section Settings.

(** Floats, and the [InMemoryRateLimiter] of langchain_core, are kept
    abstract. *)
Variables Float Limiter : Type.

(** The constants of [app/config.py] that [_create_llm] reads.  A key is
    what [os.getenv] gave: [None], or a string that may be empty. *)
Record settings : Type := mkSettings {
  LLM_PROVIDER : str;
  OPENAI_API_KEY : option str;
  OPENAI_MODEL : str;
  GOOGLE_API_KEY : option str;
  GEMINI_MODEL : str;
  IONET_API_KEY : option str;
  IONET_BASE_URL : str;
  IONET_MODEL : str;
  LLM_TEMPERATURE : Float;
  LLM_MAX_TOKENS : Z
}.

(** The two chat model classes and the keyword arguments they are
    built with; [base_url] is [None] where the call gives none. *)
Inductive chat_model : Type :=
| ChatOpenAI (model api_key : str) (base_url : option str)
    (temperature : Float) (max_tokens : Z) (rate_limiter : Limiter)
| ChatGoogleGenerativeAI (model google_api_key : str)
    (temperature : Float) (max_output_tokens : Z) (rate_limiter : Limiter).

(** [raise ValueError(message)] *)
Inductive value_error : Type :=
| ValueError (message : str).

(** [_create_llm()], of the settings and of the module's shared
    [rate_limiter].  [not KEY] holds of [None] and of the empty string;
    past that test the key is a string that is not empty. *)
Definition _create_llm (cfg : settings) (rate_limiter : Limiter)
  : value_error + chat_model :=
  if str_eqb (LLM_PROVIDER cfg) (lit "openai") then
    match OPENAI_API_KEY cfg with
    | Some (c :: key) =>
        inr (ChatOpenAI (OPENAI_MODEL cfg) (c :: key) None
               (LLM_TEMPERATURE cfg) (LLM_MAX_TOKENS cfg) rate_limiter)
    | _ =>
        inl (ValueError
               (lit "OPENAI_API_KEY is required when LLM_PROVIDER=openai"))
    end
  else if str_eqb (LLM_PROVIDER cfg) (lit "gemini") then
    match GOOGLE_API_KEY cfg with
    | Some (c :: key) =>
        inr (ChatGoogleGenerativeAI (GEMINI_MODEL cfg) (c :: key)
               (LLM_TEMPERATURE cfg) (LLM_MAX_TOKENS cfg) rate_limiter)
    | _ =>
        inl (ValueError
               (lit "GOOGLE_API_KEY is required when LLM_PROVIDER=gemini"))
    end
  else if str_eqb (LLM_PROVIDER cfg) (lit "ionet") then
    match IONET_API_KEY cfg with
    | Some (c :: key) =>
        inr (ChatOpenAI (IONET_MODEL cfg) (c :: key)
               (Some (IONET_BASE_URL cfg))
               (LLM_TEMPERATURE cfg) (LLM_MAX_TOKENS cfg) rate_limiter)
    | _ =>
        inl (ValueError
               (lit "IONET_API_KEY is required when LLM_PROVIDER=ionet"))
    end
  else
    inl (ValueError
           (lit "Unknown LLM_PROVIDER: " ++ LLM_PROVIDER cfg
            ++ lit ". Use 'openai', 'gemini', or 'ionet'")).

(** The key the settings hold for the provider they name. *)
Definition provider_key (cfg : settings) : option str :=
  if str_eqb (LLM_PROVIDER cfg) (lit "openai") then OPENAI_API_KEY cfg
  else if str_eqb (LLM_PROVIDER cfg) (lit "gemini") then GOOGLE_API_KEY cfg
  else if str_eqb (LLM_PROVIDER cfg) (lit "ionet") then IONET_API_KEY cfg
  else None.

(** The attributes of a chat model. *)
Definition key_of (m : chat_model) : str :=
  match m with
  | ChatOpenAI _ k _ _ _ _ => k
  | ChatGoogleGenerativeAI _ k _ _ _ => k
  end.

Definition temperature_of (m : chat_model) : Float :=
  match m with
  | ChatOpenAI _ _ _ t _ _ => t
  | ChatGoogleGenerativeAI _ _ t _ _ => t
  end.

Definition max_tokens_of (m : chat_model) : Z :=
  match m with
  | ChatOpenAI _ _ _ _ n _ => n
  | ChatGoogleGenerativeAI _ _ _ n _ => n
  end.

Definition rate_limiter_of (m : chat_model) : Limiter :=
  match m with
  | ChatOpenAI _ _ _ _ _ l => l
  | ChatGoogleGenerativeAI _ _ _ _ l => l
  end.

End Settings.

End Factory.

(* ===================================================================== *)
(** ** app/services/pdf_parser.py *)
(* ===================================================================== *)

Module PdfParser.

Definition MIN_TEXT_PER_PAGE : nat := 50.

(** [str(n)] of an [int], as an f-string writes it. *)
Definition str_of_int (z : Z) : str :=
  lit (NilEmpty.string_of_int (Z.to_int z)).

(** What pymupdf reads of a page: the text of [page.get_text()], and
    the text the OCR gives, [page.get_text(textpage=tp)] with [tp =
    page.get_textpage_ocr(language="eng+rus", dpi=150)], or [None] when
    one of the two calls raises. *)
Record page : Type := mkPage {
  get_text : str;
  get_text_ocr : option str
}.

(** An open PDF: its pages, and the text [pymupdf4llm.to_markdown]
    makes of it. *)
Record document : Type := mkDocument {
  pages : list page;
  to_markdown : str
}.

Definition get_page_count (doc : document) : nat := length (pages doc).

(** The body of the loop of [_extract_with_ocr], up to the test of
    [text]: the text kept for a page.  The [logger] calls of the module
    bear on no result and are left out. *)
Definition page_text (p : page) : str :=
  let text := strip (get_text p) in
  if length text <? MIN_TEXT_PER_PAGE then
    match get_text_ocr p with
    | Some ocr => strip ocr
    | None => text
    end
  else text.

(** [f"## Page {page_num + 1}\n\n{text}"] *)
Definition page_section (page_num : nat) (text : str) : str :=
  lit "## Page " ++ str_of_int (Z.of_nat page_num + 1) ++ [nl; nl] ++ text.

(** [text_parts] after the loop over [enumerate(doc)], entered at the
    page of number [page_num]. *)
Fixpoint text_parts (page_num : nat) (ps : list page) : list str :=
  match ps with
  | [] => []
  | p :: ps' =>
      (if truthy (page_text p)
       then [page_section page_num (page_text p)]
       else [])
      ++ text_parts (S page_num) ps'
  end.

Definition _extract_with_ocr (doc : document) : str :=
  join [nl; nl] (text_parts 0 (pages doc)).

Inductive too_many_pages : Type :=
| PDFTooManyPagesError (message : str).

(** [extract_text_from_pdf], of the PDF the path names and of the
    constant [MAX_PAGES] of [app/config.py]. *)
Definition extract_text_from_pdf (MAX_PAGES : Z) (doc : document)
  : too_many_pages + str :=
  let page_count := get_page_count doc in
  if (MAX_PAGES <? Z.of_nat page_count)%Z then
    inl (PDFTooManyPagesError
           (lit "PDF has " ++ str_of_int (Z.of_nat page_count)
            ++ lit " pages, maximum allowed is " ++ str_of_int MAX_PAGES))
  else
    let md_text := to_markdown doc in
    let text_length := length (strip md_text) in
    let expected_min := page_count * MIN_TEXT_PER_PAGE in
    if text_length <? expected_min then
      let ocr_text := _extract_with_ocr doc in
      if text_length <? length ocr_text then inr ocr_text
      else inr md_text
    else inr md_text.

End PdfParser.

(* ===================================================================== *)
(** ** app/main.py: the upload *)
(* ===================================================================== *)

Module Main.

Import Chunker Summarizer Factory PdfParser.

Definition bytes := list Byte.byte.

Definition ALLOWED_EXTENSIONS : list str := [lit ".pdf"].

(** A row of the table [documents] of [app/models.py], as [db.refresh]
    leaves it; [created_at] is what [isoformat()] makes of the date. *)
Record Document : Type := mkDocument_row {
  id : Z;
  filename : str;
  filepath : str;
  summary : str;
  created_at : str
}.

(** What the handler answers: the dictionary it returns, or the
    [HTTPException] it raises.  [Unfinished] stands for a run of
    [summarize_text] cut short by its fuel. *)
Inductive response : Type :=
| Uploaded (id : Z) (filename summary created_at : str)
| HTTPException (status_code : nat) (detail : str)
| Unfinished.

(** The upload directory as the handler uses it: the files by their
    paths.  [filepath.write_bytes(content)] and
    [filepath.unlink(missing_ok=True)] are taken to return. *)
Definition write_bytes (path : str) (content : bytes)
  (fs : list (str * bytes)) : list (str * bytes) :=
  (path, content)
  :: filter (fun f => negb (str_eqb (fst f) path)) fs.

Definition unlink (path : str) (fs : list (str * bytes))
  : list (str * bytes) :=
  filter (fun f => negb (str_eqb (fst f) path)) fs.

Section Server.

Variables World Exn : Type.

Variable ainvoke : list message -> World -> outcome Exn * World.
Variable next_done : World -> nat -> nat.
Variable split_text : nat -> nat -> list str -> str -> list str.

(** The constants [MAX_FILE_SIZE_MB] and [MAX_PAGES] of
    [app/config.py]. *)
Variable MAX_FILE_SIZE_MB : Z.
Variable MAX_PAGES : Z.

Definition MAX_FILE_SIZE : Z := MAX_FILE_SIZE_MB * 1024 * 1024.

(** [Path(name).suffix.lower()] *)
Variable suffix_lower : str -> str.

(** [str(uuid.uuid4())] *)
Variable uuid4 : World -> str * World.

(** [UPLOAD_DIR / unique_filename] *)
Variable upload_path : str -> str.

(** What pymupdf and pymupdf4llm make of the bytes of the saved file
    in the calls [extract_text_from_pdf] makes on it, or the exception
    the first of these calls to raise raises. *)
Variable read_pdf : bytes -> World -> (Exn + document) * World.

(** [db.add], [db.commit] and [db.refresh] of the row
    [Document(filename=..., filepath=..., summary=...)], and the
    reading of its four attributes for the answer: the row as read
    back, or the exception one of these raises. *)
Variable db_save : str -> str -> str -> World -> (Exn + Document) * World.

(** [str(e)] of an exception, and of an [HTTPException]. *)
Variable str_of_exn : Exn -> str.
Variable str_of_http : nat -> str -> str.

(** The server: the world and the trace of the calls to the model, and
    the files of the upload directory.  The table of the database is
    part of the world. *)
Record server : Type := mkServer {
  session : state World Exn;
  files : list (str * bytes)
}.

(** What the [try] block raises. *)
Inductive raised : Type :=
| RaisedTooManyPages (message : str)
| RaisedHTTP (status_code : nat) (detail : str)
| RaisedOther (e : Exn)
| RaisedOutOfFuel.

(** The [try] block of [upload_pdf], on the file that was saved.  The
    [logger] calls bear on no result and are left out. *)
Definition try_block (name path : str) (content : bytes) (st : server)
  : (raised + response) * server :=
  let (parsed, w1) := read_pdf content (world (session st)) in
  let st1 := mkServer (mkState w1 (trace (session st))) (files st) in
  match parsed with
  | inl e => (inl (RaisedOther e), st1)
  | inr doc =>
      match extract_text_from_pdf MAX_PAGES doc with
      | inl (PDFTooManyPagesError message) =>
          (inl (RaisedTooManyPages message), st1)
      | inr text =>
          if negb (truthy (strip text)) then
            (inl (RaisedHTTP 400 (lit "Could not extract text from PDF")),
             st1)
          else
            let (r, s2) :=
              summarize_text ainvoke next_done split_text text
                (session st1) in
            let st2 := mkServer s2 (files st) in
            match r with
            | Raise e => (inl (RaisedOther e), st2)
            | OutOfFuel => (inl RaisedOutOfFuel, st2)
            | Return summary =>
                let (saved, w3) := db_save name path summary (world s2) in
                let st3 := mkServer (mkState w3 (trace s2)) (files st) in
                match saved with
                | inl e => (inl (RaisedOther e), st3)
                | inr document =>
                    (inr (Uploaded (id document) (filename document)
                            (Main.summary document) (created_at document)),
                     st3)
                end
            end
      end
  end.

(** [upload_pdf], of the name and the bytes of the uploaded file. *)
Definition upload_pdf (name : str) (content : bytes) (st : server)
  : response * server :=
  let ext := suffix_lower name in
  if negb (existsb (str_eqb ext) ALLOWED_EXTENSIONS) then
    (HTTPException 400 (lit "Only PDF files are allowed"), st)
  else if (MAX_FILE_SIZE <? Z.of_nat (length content))%Z then
    (HTTPException 400 (lit "File size exceeds 50MB limit"), st)
  else
    let (uuid, w1) := uuid4 (world (session st)) in
    let unique_filename := uuid ++ ext in
    let path := upload_path unique_filename in
    let st1 := mkServer (mkState w1 (trace (session st)))
                        (write_bytes path content (files st)) in
    let (r, st2) := try_block name path content st1 in
    let cleaned := mkServer (session st2) (unlink path (files st2)) in
    match r with
    | inr answer => (answer, st2)
    | inl (RaisedTooManyPages message) =>
        (HTTPException 400 message, cleaned)
    | inl (RaisedHTTP status_code detail) =>
        (HTTPException 500 (str_of_http status_code detail), cleaned)
    | inl (RaisedOther e) =>
        (HTTPException 500 (str_of_exn e), cleaned)
    | inl RaisedOutOfFuel => (Unfinished, st2)
    end.

(** The path an accepted upload is saved under. *)
Definition saved_path (name : str) (st : server) : str :=
  upload_path (fst (uuid4 (world (session st))) ++ suffix_lower name).

End Server.

Arguments RaisedTooManyPages {Exn} message.
Arguments RaisedHTTP {Exn} status_code detail.
Arguments RaisedOther {Exn} e.
Arguments RaisedOutOfFuel {Exn}.

End Main.

(* ===================================================================== *)
(** ** Doubles for the settings, the PDF reader and the database *)
(* ===================================================================== *)

Module UploadDoubles.

Import Summarizer Factory PdfParser Main.

(** Settings that name Gemini and hold its key only; the temperature
    is kept as the text of the environment variable. *)
Definition gemini_settings : settings str :=
  mkSettings (lit "gemini") None (lit "gpt-4o-mini")
    (Some (lit "secret")) (lit "gemini-2.0-flash") None
    (lit "https://api.intelligence.io.solutions/api/v1")
    (lit "deepseek-ai/DeepSeek-V3") (lit "0.3") 1500.

(** The part of a file name from its last dot on. *)
Fixpoint suffix (name : str) : option str :=
  match name with
  | [] => None
  | c :: rest =>
      match suffix rest with
      | Some s => Some s
      | None => if N.eqb c 46 then Some name else None
      end
  end.

Definition lower (c : char) : char :=
  if (N.leb 65 c && N.leb c 90)%bool then (c + 32)%N else c.

Definition suffix_lower (name : str) : str :=
  match suffix name with
  | Some s => map lower s
  | None => []
  end.

(** The same identifier at every call. *)
Definition uuid4 (w : nat) : str * nat :=
  (lit "6f1c2a9e-0d3b-4c57-9e21-5b8a7c4d2f10", w).

Definition upload_path (unique_filename : str) : str :=
  lit "uploads/" ++ unique_filename.

(** A reader that makes the same PDF of every file. *)
Definition reads (doc : document) (content : bytes) (w : nat)
  : (nat + document) * nat :=
  (inr doc, w).

(** A PDF of one page, scanned: no text but blanks, and no OCR. *)
Definition blank_scan : document :=
  mkDocument [mkPage (lit "  ") None] [32; 10; 32]%N.

(** A PDF of one page of text. *)
Definition one_page : document :=
  mkDocument [mkPage (lit "Hello world") None] (lit "Hello world").

(** A database that takes every row, under the number 1. *)
Definition db_save (name path summary_text : str) (w : nat)
  : (nat + Document) * nat :=
  (inr (mkDocument_row 1 name path summary_text
          (lit "2024-05-01T12:00:00")), w).

Definition str_of_exn (e : nat) : str := lit "error".

(** [f"{status_code}: {detail}"] *)
Definition str_of_http (status_code : nat) (detail : str) : str :=
  str_of_int (Z.of_nat status_code) ++ lit ": " ++ detail.

(** A server that has served nothing yet. *)
Definition fresh : server nat nat := mkServer (start nat 0) [].

End UploadDoubles.


Unset Implicit Arguments.

(** Division by ten, handed to [lia] as quotient and remainder. *)
Ltac euclid10 e :=
  pose proof (Nat.div_mod_eq e 10);
  pose proof (Nat.mod_upper_bound e 10).

(* ===================================================================== *)
(** ** Facts about strings *)
(* ===================================================================== *)

Module PyStrFacts.

Lemma lstrip_head (s : str) :
  lstrip s = [] \/ exists c r, lstrip s = c :: r /\ isspace c = false.
Proof.
  induction s as [|c s IH]; simpl; [now left|].
  destruct (isspace c) eqn:E; [exact IH|].
  right. now exists c, s.
Qed.

Lemma lstrip_nil (s : str) :
  lstrip s = [] <-> forallb isspace s = true.
Proof.
  induction s as [|c s IH]; simpl; [tauto|].
  destruct (isspace c); simpl; [exact IH|].
  split; discriminate.
Qed.

Lemma rstrip_nil (s : str) :
  rstrip s = [] <-> forallb isspace s = true.
Proof.
  induction s as [|c s IH]; simpl; [tauto|].
  destruct (rstrip s) as [|d r] eqn:E.
  - destruct (isspace c); simpl; [tauto|]. split; discriminate.
  - split; [discriminate|].
    intros H. apply andb_true_iff in H as [_ H].
    apply IH in H. discriminate.
Qed.

Lemma rstrip_head (c : char) (s : str) :
  isspace c = false -> exists r, rstrip (c :: s) = c :: r.
Proof.
  intros H. simpl. destruct (rstrip s) as [|d r].
  - rewrite H. now exists [].
  - now exists (d :: r).
Qed.

(** [s.strip()] is empty exactly when [s] holds whitespace only. *)
Lemma strip_nil (s : str) :
  strip s = [] <-> forallb isspace s = true.
Proof.
  unfold strip. rewrite <- lstrip_nil. split.
  - intros H. destruct (lstrip_head s) as [E | (c & r & E & Hc)]; [exact E|].
    rewrite E in H. destruct (rstrip_head c r Hc) as [r' Hr].
    rewrite Hr in H. discriminate.
  - intros ->. reflexivity.
Qed.

Lemma truthy_false {A} (l : list A) : truthy l = false <-> l = [].
Proof. destruct l; simpl; split; congruence. Qed.

(** The guard [not text or not text.strip()]. *)
Lemma blank_guard (text : str) :
  negb (truthy text) || negb (truthy (strip text)) = true
  <-> forallb isspace text = true.
Proof.
  rewrite <- strip_nil, orb_true_iff, !negb_true_iff, !truthy_false.
  split; [|tauto]. intros [->|H]; [reflexivity | exact H].
Qed.

Lemma nonblank_guard (text : str) :
  strip text <> [] ->
  negb (truthy text) || negb (truthy (strip text)) = false.
Proof.
  intros H. apply not_true_is_false. intros G.
  apply blank_guard, strip_nil in G. contradiction.
Qed.

Lemma lstrip_blank_prefix (pre s : str) :
  forallb isspace pre = true -> lstrip (pre ++ s) = lstrip s.
Proof.
  induction pre as [|c pre IH]; intros H; [reflexivity|].
  cbn [forallb] in H. apply andb_true_iff in H as [Hc H].
  cbn [app lstrip]. rewrite Hc. now apply IH.
Qed.

Lemma rstrip_blank_suffix (s post : str) :
  forallb isspace post = true -> rstrip (s ++ post) = rstrip s.
Proof.
  intros H. induction s as [|c s IH].
  - cbn [app]. now apply rstrip_nil.
  - cbn [app rstrip]. now rewrite IH.
Qed.

Lemma lstrip_keeps_suffix (s post : str) :
  lstrip s <> [] -> lstrip (s ++ post) = lstrip s ++ post.
Proof.
  induction s as [|c s IH]; intros H; [now contradiction H|].
  cbn [app lstrip] in *. destruct (isspace c); [now apply IH | reflexivity].
Qed.

(** Whitespace before and after a text does not change what [strip]
    leaves of it. *)
Lemma strip_blank_around (pre s post : str) :
  forallb isspace pre = true -> forallb isspace post = true ->
  strip (pre ++ s ++ post) = strip s.
Proof.
  intros Hpre Hpost. unfold strip.
  rewrite (lstrip_blank_prefix pre (s ++ post) Hpre).
  destruct (lstrip s) as [|c r] eqn:E.
  - apply lstrip_nil in E.
    assert (B : forallb isspace (s ++ post) = true)
      by (rewrite forallb_app, E, Hpost; reflexivity).
    apply lstrip_nil in B. now rewrite B.
  - rewrite lstrip_keeps_suffix by (rewrite E; discriminate).
    rewrite E. now apply rstrip_blank_suffix.
Qed.

Lemma rstrip_idempotent (s : str) : rstrip (rstrip s) = rstrip s.
Proof.
  induction s as [|c s IH]; [reflexivity|].
  cbn [rstrip]. destruct (rstrip s) as [|d r] eqn:E.
  - destruct (isspace c) eqn:Hc; [reflexivity|].
    cbn [rstrip]. now rewrite Hc.
  - cbn [rstrip] in *. now rewrite IH.
Qed.

(** Trimming twice is trimming once. *)
Lemma strip_idempotent (s : str) : strip (strip s) = strip s.
Proof.
  unfold strip.
  destruct (lstrip_head s) as [E | (c & r & E & Hc)].
  - now rewrite E.
  - rewrite E. destruct (rstrip_head c r Hc) as [r' Hr].
    rewrite Hr. cbn [lstrip]. rewrite Hc, <- Hr.
    apply rstrip_idempotent.
Qed.

Lemma length_lstrip (s : str) : length (lstrip s) <= length s.
Proof.
  induction s as [|c s IH]; cbn [lstrip length]; [lia|].
  destruct (isspace c); cbn [length]; lia.
Qed.

Lemma length_rstrip (s : str) : length (rstrip s) <= length s.
Proof.
  induction s as [|c s IH]; cbn [rstrip length]; [lia|].
  destruct (rstrip s) as [|d r]; [destruct (isspace c)|]; cbn [length] in *;
    lia.
Qed.

Lemma length_strip (s : str) : length (strip s) <= length s.
Proof.
  unfold strip. pose proof (length_rstrip (lstrip s)).
  pose proof (length_lstrip s). lia.
Qed.

(** What [lstrip] removes is whitespace at the front. *)
Lemma lstrip_split (s : str) :
  exists pre, s = pre ++ lstrip s /\ forallb isspace pre = true.
Proof.
  induction s as [|c s (pre & E & B)]; [now exists []|].
  cbn [lstrip]. destruct (isspace c) eqn:Hc.
  - exists (c :: pre). cbn [app forallb]. rewrite Hc, B. split; [|reflexivity].
    now f_equal.
  - now exists [].
Qed.

(** What [rstrip] removes is whitespace at the end. *)
Lemma rstrip_split (s : str) :
  exists post, s = rstrip s ++ post /\ forallb isspace post = true.
Proof.
  induction s as [|c s (post & E & B)]; [now exists []|].
  cbn [rstrip]. destruct (rstrip s) as [|d r] eqn:R.
  - destruct (isspace c) eqn:Hc.
    + exists (c :: post). cbn [app forallb]. rewrite Hc, B.
      split; [|reflexivity]. cbn [app] in E. now f_equal.
    + exists post. cbn [app] in *. split; [now f_equal | exact B].
  - exists post. cbn [app] in *. split; [now f_equal | exact B].
Qed.

(** [strip] keeps a window of the text, with whitespace on both sides
    of it. *)
Lemma strip_split (s : str) :
  exists pre post,
    s = pre ++ strip s ++ post
    /\ forallb isspace pre = true /\ forallb isspace post = true.
Proof.
  destruct (lstrip_split s) as (pre & E1 & B1).
  destruct (rstrip_split (lstrip s)) as (post & E2 & B2).
  exists pre, post. unfold strip. rewrite <- E2. auto.
Qed.

(** A trimmed text that is not empty starts with a character that is
    not whitespace. *)
Lemma strip_head (s : str) :
  strip s = [] \/ exists c r, strip s = c :: r /\ isspace c = false.
Proof.
  unfold strip. destruct (lstrip_head s) as [E | (c & r & E & Hc)].
  - left. now rewrite E.
  - right. rewrite E. destruct (rstrip_head c r Hc) as [r' Hr].
    now exists c, r'.
Qed.

(** A trimmed text has no whitespace before it, and none after it. *)
Lemma strip_no_blank_prefix (s gap rest : str) :
  strip s = gap ++ rest -> forallb isspace gap = true -> rest <> [] ->
  gap = [].
Proof.
  intros E B N. destruct gap as [|g gap]; [reflexivity|].
  exfalso. destruct (strip_head s) as [Z | (c & r & Z & Hc)].
  - rewrite Z in E. discriminate E.
  - rewrite Z in E. cbn [app] in E. injection E as -> _.
    cbn [forallb] in B. rewrite Hc in B. discriminate B.
Qed.

Lemma strip_no_blank_suffix (s rest gap : str) :
  strip s = rest ++ gap -> forallb isspace gap = true -> gap = [].
Proof.
  intros E B.
  assert (R : rstrip (strip s) = strip s)
    by (unfold strip; apply rstrip_idempotent).
  rewrite E in R. rewrite (rstrip_blank_suffix rest gap B) in R.
  pose proof (length_rstrip rest) as L. rewrite R, length_app in L.
  destruct gap; [reflexivity | cbn [length] in L; lia].
Qed.

End PyStrFacts.

(* ===================================================================== *)
(** ** The chunker: short texts *)
(* ===================================================================== *)

Module ChunkerFacts.

Import Chunker PyStrFacts.

Section WithSplitter.

Variable split_text : nat -> nat -> list str -> str -> list str.

Lemma chunks_of_blank (text : str) :
  strip text = [] -> split_text_into_chunks split_text text = [].
Proof.
  intros H. unfold split_text_into_chunks.
  apply strip_nil, blank_guard in H. now rewrite H.
Qed.

Lemma chunks_of_short (text : str) :
  strip text <> [] -> length (strip text) <= CHUNK_SIZE ->
  split_text_into_chunks split_text text = [strip text].
Proof.
  intros H L. unfold split_text_into_chunks.
  rewrite (nonblank_guard text H).
  apply Nat.leb_le in L. now rewrite L.
Qed.

Lemma chunks_of_long (text : str) :
  CHUNK_SIZE < length (strip text) ->
  split_text_into_chunks split_text text =
  split_text CHUNK_SIZE CHUNK_OVERLAP separators (strip text).
Proof.
  intros L. unfold split_text_into_chunks.
  assert (H : strip text <> []) by (intros E; rewrite E in L; inversion L).
  rewrite (nonblank_guard text H).
  apply Nat.leb_gt in L. now rewrite L.
Qed.

(** C8. A text whose trimmed form is not empty and has at most
    [CHUNK_SIZE] (4000) characters is returned as exactly one chunk, the
    trimmed text itself; the splitter is not consulted. *)
Theorem short_text_is_one_chunk (text : str) :
  strip text <> [] ->
  length (strip text) <= CHUNK_SIZE ->
  split_text_into_chunks split_text text = [strip text]
  /\ length (split_text_into_chunks split_text text) = 1.
Proof.
  intros H L. rewrite (chunks_of_short text H L). split; reflexivity.
Qed.

End WithSplitter.

End ChunkerFacts.


Module SplitterFacts.

Import Chunker Doubles PyStrFacts ChunkerFacts.

Section Pieces.

Lemma concat_piece acc : concat (piece acc) = rev acc.
Proof.
  destruct acc as [|a acc]; [reflexivity|].
  cbn [piece concat]. now rewrite rev_append_rev, !app_nil_r.
Qed.

(** Splitting drops nothing. *)
Lemma concat_split_keep sep skip acc text :
  concat (split_keep sep skip acc text) = rev acc ++ text.
Proof.
  revert skip acc. induction text as [|c text IH]; intros skip acc.
  - cbn [split_keep]. now rewrite concat_piece, app_nil_r.
  - cbn [split_keep]. destruct skip as [|skip].
    + destruct (is_prefix sep (c :: text)).
      * rewrite concat_app, concat_piece, IH. reflexivity.
      * rewrite IH. cbn [rev]. now rewrite <- app_assoc.
    + rewrite IH. cbn [rev]. now rewrite <- app_assoc.
Qed.

Lemma concat_chars text : concat (chars text) = text.
Proof.
  unfold chars. induction text as [|c text IH]; [reflexivity|].
  cbn [map concat app]. now rewrite IH.
Qed.

Lemma chars_short text :
  Forall (fun p => length p = 1) (chars text).
Proof.
  unfold chars. induction text as [|c text IH]; cbn [map];
    constructor; [reflexivity | exact IH].
Qed.

End Pieces.

Section Windows.

Variable overlap : nat.

Lemma blank_app (a b : str) :
  forallb isspace (a ++ b) = true
  <-> forallb isspace a = true /\ forallb isspace b = true.
Proof. rewrite forallb_app. apply andb_true_iff. Qed.

(** Chunks of two texts, one after the other. *)
Lemma spans_app text1 chunks1 text2 chunks2 :
  Spans overlap text1 chunks1 -> Spans overlap text2 chunks2 ->
  Spans overlap (text1 ++ text2) (chunks1 ++ chunks2).
Proof.
  intros H1 H2.
  induction H1 as [gap B | gap text chunks B H IH | a b rest chunks N L H IH].
  - cbn [app]. now apply spans_skip.
  - rewrite <- app_assoc. now apply spans_skip.
  - rewrite <- !app_assoc in *. cbn [app]. now apply spans_step.
Qed.

(** No chunk: the text is whitespace. *)
Lemma spans_nil text :
  Spans overlap text [] -> forallb isspace text = true.
Proof.
  intros H. remember [] as chunks eqn:E.
  induction H as [gap B | gap text chunks B H IH | a b rest chunks N L H IH].
  - exact B.
  - apply blank_app. auto.
  - discriminate E.
Qed.

(** One chunk: the text is that chunk, with whitespace around it. *)
Lemma spans_one text chunk :
  Spans overlap text [chunk] ->
  exists pre post,
    text = pre ++ chunk ++ post
    /\ forallb isspace pre = true /\ forallb isspace post = true.
Proof.
  intros H. remember [chunk] as chunks eqn:E.
  induction H as [gap B | gap text chunks B H IH | a b rest chunks N L H IH].
  - discriminate E.
  - destruct (IH E) as (pre & post & -> & B1 & B2).
    exists (gap ++ pre), post. rewrite <- app_assoc.
    split; [reflexivity|]. split; [|exact B2]. apply blank_app. auto.
  - injection E as <- ->. apply spans_nil, blank_app in H as [_ B].
    exists [], rest. rewrite <- app_assoc. auto.
Qed.

(** A chunk that ends where the next one starts, or before. *)
Lemma spans_whole chunk rest chunks :
  chunk <> [] -> Spans overlap rest chunks ->
  Spans overlap (chunk ++ rest) (chunk :: chunks).
Proof.
  intros N H.
  pose proof (@spans_step overlap chunk [] rest chunks) as S.
  rewrite app_nil_r in S. cbn [app length] in S.
  apply S; [exact N | lia | exact H].
Qed.

(** Whitespace before chunks that do not start with whitespace can be
    left out of the text. *)
Lemma spans_lstrip text chunks :
  Spans overlap text chunks ->
  Forall starts_black chunks ->
  forall gap rest,
    text = gap ++ rest -> forallb isspace gap = true ->
    Spans overlap rest chunks.
Proof.
  intros H.
  induction H as [gap0 B | gap0 text chunks B H IH | a b rest0 chunks N L H IH];
    intros F gap rest E G.
  - apply spans_end. rewrite E in B. now apply blank_app in B.
  - apply app_eq_app in E as [l [[E1 E2] | [E1 E2]]].
    + subst gap0 rest. apply spans_skip; [|exact H].
      now apply blank_app in B.
    + subst gap text. apply (IH F l rest eq_refl).
      now apply blank_app in G.
  - destruct gap as [|g gap].
    + cbn [app] in E. subst rest. now apply spans_step.
    + exfalso. inversion F as [|? ? (c & r & Ec & Hc) _]; subst.
      rewrite app_assoc, Ec in E. cbn [app] in E. injection E as -> _.
      cbn [forallb] in G. rewrite Hc in G. discriminate G.
Qed.

End Windows.

Section Packing.

Variables chunk_size overlap : nat.

(** A closed chunk is trimmed: it is not empty, starts with a character
    that is not whitespace, and is no longer than its pieces. *)
Lemma join_docs_trimmed docs :
  Forall (fun c => starts_black c /\ length c <= length (concat docs))
         (_join_docs docs).
Proof.
  unfold _join_docs. pose proof (length_strip (concat docs)) as L.
  destruct (strip_head (concat docs)) as [E | (c & r & E & Hc)];
    rewrite E in *; constructor; [|constructor].
  split; [now exists c, r | exact L].
Qed.

(** A chunk is closed on its pieces [closed ++ kept], of which [kept]
    opens the chunks that follow. *)
Lemma join_docs_spans closed kept rest chunks :
  length kept <= overlap ->
  Forall starts_black chunks ->
  Spans overlap (kept ++ rest) chunks ->
  Spans overlap (closed ++ kept ++ rest)
        (match strip (closed ++ kept) with
         | [] => []
         | _ :: _ => [strip (closed ++ kept)]
         end ++ chunks).
Proof.
  intros L F H.
  destruct (strip_split (closed ++ kept)) as (pre & post & E & B1 & B2).
  destruct (strip (closed ++ kept)) as [|c core'] eqn:S.
  - cbn [app] in *. apply spans_skip; [|exact H].
    assert (B : forallb isspace (closed ++ kept) = true)
      by (rewrite E; apply blank_app; auto).
    now apply blank_app in B.
  - set (core := c :: core') in *.
    assert (N : core <> []) by discriminate.
    cbn [app]. change (core :: chunks) with ((core :: chunks)).
    apply app_eq_app in E as [l [[E1 E2] | [E1 E2]]].
    + subst closed. rewrite <- !app_assoc. apply spans_skip; [exact B1|].
      apply app_eq_app in E2 as [m [[E3 E4] | [E3 E4]]].
      * (* the kept pieces start in the chunk *)
        subst kept. rewrite E3. rewrite <- !app_assoc.
        apply spans_step.
        -- rewrite <- E3. exact N.
        -- rewrite length_app in L. lia.
        -- now rewrite <- !app_assoc in H.
      * (* the kept pieces start after the chunk *)
        subst l. rewrite <- !app_assoc.
        apply (spans_whole overlap _ _ _ N).
        apply spans_skip; [|exact H].
        rewrite E4 in B2. now apply blank_app in B2.
    + (* the kept pieces start in the whitespace before the chunk *)
      subst pre kept. rewrite <- !app_assoc in *.
      apply blank_app in B1 as [Bc Bl].
      apply spans_skip; [exact Bc|]. apply spans_skip; [exact Bl|].
      assert (Lc : length core <= overlap)
        by (rewrite !length_app in L; lia).
      pose proof (spans_lstrip overlap _ _ H F l _ eq_refl Bl) as H'.
      apply (@spans_step overlap [] core (post ++ rest) chunks);
        [exact N | exact Lc | exact H'].
Qed.

(** What [pop] leaves is the end of the chunk just closed; it fits in
    the overlap, and leaves room for the piece to come unless nothing
    is left. *)
Lemma pop_spec len current_doc total :
  total = length (concat current_doc) ->
  exists dropped,
    current_doc
    = dropped ++ snd (pop chunk_size overlap len total current_doc)
    /\ fst (pop chunk_size overlap len total current_doc)
       = length (concat (snd (pop chunk_size overlap len total current_doc)))
    /\ fst (pop chunk_size overlap len total current_doc) <= overlap
    /\ (fst (pop chunk_size overlap len total current_doc) + len
        <= chunk_size
        \/ fst (pop chunk_size overlap len total current_doc) = 0).
Proof.
  revert total. induction current_doc as [|d cur IH]; intros total E.
  - cbn in E. subst total. exists []. cbn [pop].
    destruct ((overlap <? 0) || ((chunk_size <? 0 + len) && (0 <? 0)));
      cbn; repeat split; auto; lia.
  - cbn [pop].
    destruct (Nat.ltb_spec overlap total) as [O|O]; cbn [orb].
    + destruct (IH (total - length d)) as (dropped & E1 & E2 & E3 & E4).
      { cbn [concat] in E. rewrite length_app in E. lia. }
      exists (d :: dropped). cbn [app]. split; [now f_equal | auto].
    + destruct (Nat.ltb_spec chunk_size (total + len)) as [C|C];
        cbn [andb].
      * destruct (Nat.ltb_spec 0 total) as [Z|Z].
        -- destruct (IH (total - length d)) as (dropped & E1 & E2 & E3 & E4).
           { cbn [concat] in E. rewrite length_app in E. lia. }
           exists (d :: dropped). cbn [app]. split; [now f_equal | auto].
        -- exists []. cbn [app fst snd]. repeat split; auto. right. lia.
      * exists []. cbn [app fst snd]. repeat split; auto.
Qed.

(** Every chunk that [_merge_splits] makes is trimmed. *)
Lemma merge_splits_black splits current_doc total :
  Forall starts_black
         (_merge_splits chunk_size overlap splits current_doc total).
Proof.
  revert current_doc total.
  induction splits as [|d splits IH]; intros cur total; cbn [_merge_splits].
  - eapply Forall_impl; [|apply join_docs_trimmed]. now intros c [H _].
  - destruct (chunk_size <? total + length d); [|apply IH].
    destruct cur as [|q cur]; [apply IH|].
    destruct (pop chunk_size overlap (length d) total (q :: cur))
      as [total' cur'].
    apply Forall_app. split; [|apply IH].
    eapply Forall_impl; [|apply join_docs_trimmed]. now intros c [H _].
Qed.

(** No chunk that [_merge_splits] makes is longer than [chunk_size],
    when no piece is. *)
Lemma merge_splits_bounded splits current_doc total :
  total = length (concat current_doc) ->
  total <= chunk_size ->
  Forall (fun p => length p <= chunk_size) splits ->
  Forall (fun c => length c <= chunk_size)
         (_merge_splits chunk_size overlap splits current_doc total).
Proof.
  revert current_doc total.
  induction splits as [|d splits IH]; intros cur total E T F;
    cbn [_merge_splits].
  - eapply Forall_impl; [|apply join_docs_trimmed].
    intros c [_ H]. cbv beta in H. lia.
  - inversion F as [|? ? Fd Fs]; subst.
    destruct (Nat.ltb_spec chunk_size (length (concat cur) + length d))
      as [G|G].
    + destruct cur as [|q cur].
      * apply IH; [|cbn [concat length]; lia | exact Fs].
        cbn [concat]. now rewrite app_nil_r.
      * destruct (pop_spec (length d) (q :: cur) _ eq_refl)
          as (dropped & E1 & E2 & E3 & E4).
        destruct (pop chunk_size overlap (length d)
                    (length (concat (q :: cur))) (q :: cur))
          as [total' cur'].
        cbn [fst snd] in E1, E2, E3, E4.
        apply Forall_app. split.
        -- eapply Forall_impl; [|apply join_docs_trimmed].
           intros c [_ H]. cbv beta in H. lia.
        -- apply IH; [|lia | exact Fs].
           rewrite concat_app, length_app. cbn [concat].
           rewrite app_nil_r. lia.
    + apply IH; [|lia | exact Fs].
      rewrite concat_app, length_app. cbn [concat]. now rewrite app_nil_r.
Qed.

(** The chunks that [_merge_splits] makes are windows of the pieces
    put end to end. *)
Lemma merge_splits_spans splits current_doc total :
  total = length (concat current_doc) ->
  Spans overlap (concat current_doc ++ concat splits)
        (_merge_splits chunk_size overlap splits current_doc total).
Proof.
  revert current_doc total.
  induction splits as [|d splits IH]; intros cur total E;
    cbn [_merge_splits].
  - cbn [concat]. rewrite app_nil_r.
    pose proof (join_docs_spans (concat cur) [] [] []) as J.
    rewrite !app_nil_r in J. unfold _join_docs. cbv zeta.
    apply J; [cbn; lia | constructor |].
    now apply spans_end.
  - assert (Step : forall cur',
               concat (cur' ++ [d]) ++ concat splits
               = concat cur' ++ concat (d :: splits)).
    { intros cur'. rewrite concat_app. cbn [concat].
      now rewrite app_nil_r, <- app_assoc. }
    destruct (chunk_size <? total + length d).
    + destruct cur as [|q cur].
      * cbn [concat app]. subst total.
        specialize (IH [d] (0 + length d)). cbn [concat] in IH.
        rewrite app_nil_r in IH. apply IH. reflexivity.
      * destruct (pop_spec (length d) (q :: cur) total E)
          as (dropped & E1 & E2 & E3 & E4).
        destruct (pop chunk_size overlap (length d) total (q :: cur))
          as [total' cur'].
        cbn [fst snd] in E1, E2, E3, E4.
        specialize (IH (cur' ++ [d]) (total' + length d)).
        rewrite Step in IH.
        assert (Ec : concat (q :: cur) = concat dropped ++ concat cur')
          by (rewrite E1; apply concat_app).
        unfold _join_docs. cbv zeta. rewrite Ec, <- app_assoc.
        apply join_docs_spans; [lia | apply merge_splits_black |].
        apply IH. rewrite concat_app, length_app. cbn [concat].
        rewrite app_nil_r. lia.
    + rewrite <- Step. apply IH.
      rewrite concat_app, length_app. cbn [concat].
      rewrite app_nil_r. lia.
Qed.

End Packing.

Section Descent.

Variables chunk_size overlap : nat.
Hypothesis chunk_size_positive : 1 <= chunk_size.

Lemma merged_spans good :
  Spans overlap (concat good) (merged chunk_size overlap good).
Proof.
  destruct good as [|g good]; [now apply spans_end|].
  unfold merged.
  exact (merge_splits_spans chunk_size overlap (g :: good) [] 0 eq_refl).
Qed.

Lemma merged_bounded good :
  Forall (fun p => length p <= chunk_size) good ->
  Forall (fun c => length c <= chunk_size)
         (merged chunk_size overlap good).
Proof.
  intros F. destruct good as [|g good]; [constructor|].
  unfold merged. apply merge_splits_bounded; [reflexivity | lia | exact F].
Qed.

(** The chunks of the pieces of a text are windows of it, when those
    of a piece that is split further are. *)
Lemma good_and_long_spans deeper good splits :
  (forall f, deeper = Some f -> forall s, Spans overlap s (f s)) ->
  Spans overlap (concat good ++ concat splits)
        (good_and_long chunk_size overlap deeper good splits).
Proof.
  intros D. revert good.
  induction splits as [|s splits IH]; intros good; cbn [good_and_long].
  - cbn [concat]. rewrite app_nil_r. apply merged_spans.
  - destruct (Nat.ltb_spec (length s) chunk_size) as [G|G].
    + specialize (IH (good ++ [s])). rewrite concat_app in IH.
      cbn [concat] in IH. now rewrite app_nil_r, <- app_assoc in IH.
    + cbn [concat]. apply spans_app; [apply merged_spans|].
      apply spans_app; [|apply (IH [])].
      destruct deeper as [f|]; [now apply D|].
      rewrite <- (app_nil_r s) at 1. apply spans_whole.
      * intros Z. rewrite Z in G. cbn in G. lia.
      * now apply spans_end.
Qed.

Lemma good_and_long_bounded deeper good splits :
  (forall f, deeper = Some f ->
             forall s, Forall (fun c => length c <= chunk_size) (f s)) ->
  (deeper = None -> Forall (fun p => length p < chunk_size) splits) ->
  Forall (fun p => length p <= chunk_size) good ->
  Forall (fun c => length c <= chunk_size)
         (good_and_long chunk_size overlap deeper good splits).
Proof.
  intros D N. revert good.
  induction splits as [|s splits IH]; intros good F; cbn [good_and_long].
  - now apply merged_bounded.
  - assert (N' : deeper = None ->
                 Forall (fun p => length p < chunk_size) splits).
    { intros Z. specialize (N Z). now inversion N. }
    destruct (Nat.ltb_spec (length s) chunk_size) as [G|G].
    + apply (IH N'). apply Forall_app. split; [exact F|].
      constructor; [lia | constructor].
    + apply Forall_app. split; [now apply merged_bounded|].
      apply Forall_app. split; [|apply (IH N'); constructor].
      destruct deeper as [f|]; [now apply D|].
      specialize (N eq_refl). inversion N; subst. lia.
Qed.

(** The chunks of a text are windows of it, whatever the separators. *)
Lemma split_text_spans seps text :
  Spans overlap text (_split_text chunk_size overlap seps text).
Proof.
  revert text. induction seps as [|sep seps IH]; intros text;
    cbn [_split_text].
  - pose proof (good_and_long_spans None [] (piece (rev text))) as H.
    rewrite concat_piece, rev_involutive in H. apply H. discriminate.
  - destruct sep as [|c sep].
    + pose proof (good_and_long_spans None [] (chars text)) as H.
      rewrite concat_chars in H. apply H. discriminate.
    + destruct (occurs (c :: sep) text); [|apply IH].
      set (deeper := match seps with
                      | [] => None
                      | _ :: _ => Some (_split_text chunk_size overlap seps)
                      end).
      pose proof (good_and_long_spans deeper []
                    (split_keep (c :: sep) 0 [] text)) as H.
      rewrite concat_split_keep in H. apply H.
      intros f E s. subst deeper. destruct seps; [discriminate E|].
      injection E as <-. apply IH.
Qed.

(** With the character boundary among the separators, no chunk is
    longer than [chunk_size]. *)
Lemma split_text_bounded seps text :
  2 <= chunk_size -> In [] seps ->
  Forall (fun c => length c <= chunk_size)
         (_split_text chunk_size overlap seps text).
Proof.
  intros C. revert text. induction seps as [|sep seps IH]; intros text I;
    [contradiction|]. cbn [_split_text].
  destruct sep as [|c sep].
  - apply good_and_long_bounded; [discriminate | | constructor].
    intros _. eapply Forall_impl; [|apply chars_short].
    intros p H. cbv beta in H. lia.
  - destruct I as [I|I]; [discriminate I|].
    destruct (occurs (c :: sep) text); [|now apply IH].
    apply good_and_long_bounded; [| |constructor].
    + intros f E s. destruct seps; [discriminate E|].
      injection E as <-. now apply IH.
    + intros E. destruct seps; [contradiction | discriminate E].
Qed.

End Descent.

Section Coverage.

Lemma covering_nonempty overlap text chunks :
  Covering overlap text chunks -> chunks <> [].
Proof. intros H. destruct H; discriminate. Qed.

(** The first chunk starts with the first character of the text. *)
Lemma covering_first_char overlap text chunks x r :
  Covering overlap text chunks -> text = x :: r ->
  exists r' chunks', chunks = (x :: r') :: chunks'.
Proof.
  intros H E. destruct H as [text | a b rest chunks Ha Hov H].
  - subst. now exists r, [].
  - destruct a as [|y a]; [now contradiction Ha|].
    cbn in E. injection E as -> _.
    now exists (a ++ b), chunks.
Qed.

(** Chunks that cover a text hold as many characters as it has, at
    least. *)
Lemma covering_length overlap text chunks :
  Covering overlap text chunks ->
  length text <= length (concat chunks).
Proof.
  induction 1 as [text | a b rest chunks Ha Hov H IH].
  - cbn [concat]. rewrite app_nil_r. lia.
  - cbn [concat]. rewrite !length_app in *. lia.
Qed.

(** The chunks of a trimmed text that is longer than a chunk may be
    are two at least. *)
Lemma spans_two overlap chunk_size text chunks :
  Spans overlap (strip text) chunks ->
  Forall (fun c => length c <= chunk_size) chunks ->
  chunk_size < length (strip text) ->
  2 <= length chunks.
Proof.
  intros H F L. destruct chunks as [|c [|c2 chunks]]; [| |cbn; lia].
  - exfalso. apply spans_nil, strip_nil in H.
    rewrite strip_idempotent in H. rewrite H in L. cbn in L. lia.
  - exfalso. apply spans_one in H as (pre & post & E & B1 & B2).
    assert (Nc : c ++ post <> []).
    { intros Z. apply app_eq_nil in Z as [-> ->].
      rewrite app_nil_r in E.
      assert (strip text = []) as Z; [|rewrite Z in L; cbn in L; lia].
      apply strip_nil in B1. rewrite <- E in B1.
      now rewrite strip_idempotent in B1. }
    pose proof (strip_no_blank_prefix text pre (c ++ post) E B1 Nc) as ->.
    cbn [app] in E.
    pose proof (strip_no_blank_suffix text c post E B2) as ->.
    rewrite app_nil_r in E. rewrite E in L.
    inversion F; subst. lia.
Qed.

(** The splitter as a whole. *)
Lemma recursive_split_text_spec chunk_size overlap seps text :
  2 <= chunk_size -> In [] seps ->
  Forall (fun c => length c <= chunk_size)
         (recursive_split_text chunk_size overlap seps text)
  /\ Spans overlap text
       (recursive_split_text chunk_size overlap seps text).
Proof.
  intros C I. unfold recursive_split_text.
  destruct seps as [|sep seps]; [contradiction|]. split.
  - apply split_text_bounded; solve [lia | assumption].
  - apply split_text_spans. lia.
Qed.

Lemma separators_end_with_characters : In [] separators.
Proof. unfold separators. cbn. tauto. Qed.

(** C3, as the code has it.  For a text whose trimmed form has more
    than [CHUNK_SIZE] (4000) characters, the chunker returns at least
    two chunks, none longer than [CHUNK_SIZE].  The chunks are windows
    of the trimmed text, in its order: consecutive chunks overlap by at
    most [CHUNK_OVERLAP] (200) characters, and what the chunks leave
    out of the trimmed text, between a chunk and the next, is
    whitespace only.  The splitter is the one of langchain, as it is
    described beside the chunker. *)
Theorem long_text_chunks_span_trimmed_text (text : str) :
  CHUNK_SIZE < length (strip text) ->
  2 <= length (split_text_into_chunks recursive_split_text text)
  /\ Forall (fun c => length c <= CHUNK_SIZE)
            (split_text_into_chunks recursive_split_text text)
  /\ Spans CHUNK_OVERLAP (strip text)
           (split_text_into_chunks recursive_split_text text).
Proof.
  intros L. rewrite (chunks_of_long recursive_split_text text L).
  destruct (recursive_split_text_spec CHUNK_SIZE CHUNK_OVERLAP separators
              (strip text)) as [Hb Hs];
    [unfold CHUNK_SIZE; lia | apply separators_end_with_characters |].
  split; [|split; [exact Hb | exact Hs]].
  eapply spans_two; [exact Hs | exact Hb | exact L].
Qed.

(** Whatever the splitter, the chunks cannot cover every text as it
    was handed in: a text and the same text after a space have the same
    chunks, which cannot start with the space and with the letter
    both. *)
Lemma no_splitter_covers_untrimmed_text
      (split_text : nat -> nat -> list str -> str -> list str) :
  ~ (forall text,
        CHUNK_SIZE < length (strip text) ->
        Covering CHUNK_OVERLAP text
                 (split_text_into_chunks split_text text)).
Proof.
  intros H.
  assert (E1 : strip (32 :: repeat 97 4001)%N = repeat 97%N 4001)
    by (vm_compute; reflexivity).
  assert (E2 : strip (repeat 97%N 4001) = repeat 97%N 4001)
    by (vm_compute; reflexivity).
  assert (L : CHUNK_SIZE < length (repeat 97%N 4001))
    by (apply Nat.ltb_lt; vm_compute; reflexivity).
  pose proof (H (32 :: repeat 97 4001)%N) as H1.
  pose proof (H (repeat 97%N 4001)) as H2.
  rewrite E1 in H1. rewrite E2 in H2.
  specialize (H1 L). specialize (H2 L).
  rewrite chunks_of_long in H1 by (now rewrite E1).
  rewrite chunks_of_long in H2 by (now rewrite E2).
  rewrite E1 in H1. rewrite E2 in H2.
  destruct (covering_first_char _ _ _ _ _ H1 eq_refl) as (r1 & c1 & C1).
  destruct (covering_first_char _ _ _ 97%N (repeat 97%N 4000) H2 eq_refl)
    as (r2 & c2 & C2).
  rewrite C1 in C2. discriminate C2.
Qed.

(** C3, as the spec words it, fails, and twice.  The chunker trims the
    text before it splits it, so the chunks of a text that starts with
    a space, here a space and 4001 letters, do not cover that space.
    And the splitter trims every chunk, so whitespace between two
    chunks is in none of them: a text of two paragraphs of 3798
    letters, each closed by a blank line, gives two chunks of 3798
    letters, which leave out the blank line between the paragraphs and
    so do not even cover the trimmed text. *)
Lemma whitespace_is_not_covered :
  (CHUNK_SIZE < length (strip (32 :: repeat 97 4001)%N)
   /\ ~ Covering CHUNK_OVERLAP (32 :: repeat 97 4001)%N
         (split_text_into_chunks recursive_split_text
            (32 :: repeat 97 4001)%N))
  /\ (CHUNK_SIZE < length (strip (paragraphs 2))
      /\ split_text_into_chunks recursive_split_text (paragraphs 2)
         = [repeat 97%N 3798; repeat 97%N 3798]
      /\ ~ Covering CHUNK_OVERLAP (strip (paragraphs 2))
            (split_text_into_chunks recursive_split_text (paragraphs 2))
      /\ ~ Covering CHUNK_OVERLAP (paragraphs 2)
            (split_text_into_chunks recursive_split_text (paragraphs 2))).
Proof.
  split; [split|split; [|split; [|split]]].
  - apply Nat.ltb_lt. vm_compute. reflexivity.
  - intros H.
    assert (E : split_text_into_chunks recursive_split_text
                  (32 :: repeat 97 4001)%N
                = [repeat 97%N 4000; repeat 97%N 201])
      by (vm_compute; reflexivity).
    rewrite E in H.
    destruct (covering_first_char _ _ _ _ _ H eq_refl) as (r1 & c1 & E1).
    discriminate E1.
  - apply Nat.ltb_lt. vm_compute. reflexivity.
  - vm_compute. reflexivity.
  - intros H. apply covering_length in H. revert H.
    apply Nat.lt_nge, Nat.ltb_lt. vm_compute. reflexivity.
  - intros H. apply covering_length in H. revert H.
    apply Nat.lt_nge, Nat.ltb_lt. vm_compute. reflexivity.
Qed.

End Coverage.

End SplitterFacts.

(* ===================================================================== *)
(** ** The orchestrator: traces, fan-out and batches *)
(* ===================================================================== *)

Module SummarizerFacts.

Import Chunker Summarizer PyStrFacts ChunkerFacts.

Section Traces.

Context {Exn : Type}.
Implicit Types tr : list (event Exn).

Lemma calls_app tr1 tr2 : calls (tr1 ++ tr2) = calls tr1 ++ calls tr2.
Proof.
  induction tr1 as [|[m r|l] tr1 IH]; simpl; [reflexivity| |exact IH].
  now rewrite IH.
Qed.

Lemma errors_app tr1 tr2 : errors (tr1 ++ tr2) = errors tr1 ++ errors tr2.
Proof.
  induction tr1 as [|[m [c|e]|l] tr1 IH]; simpl;
    [reflexivity|exact IH| |exact IH].
  now rewrite IH.
Qed.

Lemma passes_app tr1 tr2 : passes (tr1 ++ tr2) = passes tr1 ++ passes tr2.
Proof.
  induction tr1 as [|[m r|[]] tr1 IH]; simpl; try exact IH;
    [reflexivity|]. now rewrite IH.
Qed.

Lemma finals_app tr1 tr2 : finals (tr1 ++ tr2) = finals tr1 + finals tr2.
Proof.
  induction tr1 as [|[m r|[]] tr1 IH]; simpl; try exact IH;
    [reflexivity|]. now rewrite IH.
Qed.

Lemma calls_invocations prompts (rs : list (outcome Exn)) :
  calls (invocations prompts rs) = combine prompts rs.
Proof.
  unfold invocations.
  induction (combine prompts rs) as [|[m r] l IH]; simpl; [reflexivity|].
  now rewrite IH.
Qed.

Lemma passes_invocations prompts (rs : list (outcome Exn)) :
  passes (invocations prompts rs) = [].
Proof.
  unfold invocations.
  induction (combine prompts rs) as [|[m r] l IH]; simpl; [reflexivity|].
  exact IH.
Qed.

Lemma finals_invocations prompts (rs : list (outcome Exn)) :
  finals (invocations prompts rs) = 0.
Proof.
  unfold invocations.
  induction (combine prompts rs) as [|[m r] l IH]; simpl; [reflexivity|].
  exact IH.
Qed.

Lemma errors_invocations_content prompts (l : list str) :
  errors (invocations prompts (map (@Content Exn) l)) = [].
Proof.
  unfold invocations. revert l.
  induction prompts as [|p prompts IH]; intros [|c l]; simpl; auto.
Qed.

Lemma errors_invocations_raised prompts (rs : list (outcome Exn)) e :
  length prompts = length rs -> In (Raised e) rs ->
  In e (errors (invocations prompts rs)).
Proof.
  unfold invocations. revert rs.
  induction prompts as [|p prompts IH]; intros [|r rs] L H; simpl in *;
    try discriminate; try contradiction.
  injection L as L. destruct H as [-> | H].
  - now left.
  - destruct r; [|right]; now apply IH.
Qed.

Lemma observed_contents prompts (l : list str) :
  observed prompts (map (fun c => Some (@Content Exn c)) l)
  = invocations prompts (map (@Content Exn) l).
Proof.
  unfold observed, invocations. revert l.
  induction prompts as [|p prompts IH]; intros [|c l]; cbn; auto.
  now rewrite IH.
Qed.

Lemma passes_observed prompts (seen : list (option (outcome Exn))) :
  passes (observed prompts seen) = [].
Proof.
  unfold observed.
  induction (combine prompts seen) as [|[m [r|]] l IH]; cbn; auto.
Qed.

Lemma finals_observed prompts (seen : list (option (outcome Exn))) :
  finals (observed prompts seen) = 0.
Proof.
  unfold observed.
  induction (combine prompts seen) as [|[m [r|]] l IH]; cbn; auto.
Qed.

(** A trace that grows without a new exception. *)
Lemma errors_unchanged tr evs :
  errors (tr ++ evs) = errors tr -> errors evs = [].
Proof.
  rewrite errors_app. intros H.
  apply (app_inv_head (errors tr)). now rewrite app_nil_r.
Qed.

End Traces.

Section Batches.

Lemma ceil_div_10 n : ceil_div n 10 = (n + 9) / 10.
Proof. unfold ceil_div. f_equal. lia. Qed.

Lemma ceil_div_le n m : ceil_div n 10 <= m <-> n <= 10 * m.
Proof. rewrite ceil_div_10. euclid10 (n + 9). lia. Qed.

Lemma ceil_div_lt n : 1 < n -> ceil_div n 10 < n.
Proof. rewrite ceil_div_10. intros H. euclid10 (n + 9). lia. Qed.



Lemma length_range_from count start step :
  length (range_from count start step) = count.
Proof.
  revert start. induction count as [|count IH]; intros start; simpl;
    [reflexivity|]. now rewrite IH.
Qed.



Lemma batches_of_range (l : list str) :
  batches_of l =
  map (fun i => slice l i (i + 10))
      (range_from (ceil_div (length l - 0) 10) 0 10).
Proof.
  unfold batches_of, range, max_summaries_per_reduce, ceil_div.
  reflexivity.
Qed.



(** A pass makes [ceil_div n 10] batches of [n] summaries. *)
Lemma length_batches_of (l : list str) :
  length (batches_of l) = ceil_div (length l) max_summaries_per_reduce.
Proof.
  rewrite batches_of_range, length_map, length_range_from.
  now rewrite Nat.sub_0_r.
Qed.

(** Fifteen summaries make two batches, of ten and of five. *)
Lemma batches_of_15 (l : list str) :
  length l = 15 -> batches_of l = [firstn 10 l; skipn 10 l].
Proof.
  intros L.
  do 15 (destruct l as [|? l]; [discriminate L|]).
  destruct l; [reflexivity | discriminate L].
Qed.

End Batches.


Section Run.

Context {World Exn : Type}.
Variable ainvoke : list message -> World -> outcome Exn * World.
Variable next_done : World -> nat -> nat.
Variable split_text : nat -> nat -> list str -> str -> list str.

Implicit Types cells : list (list message * option (outcome Exn)).

Lemma ensures_ret {A} (a : A) :
  @ensures World Exn A (ret a) (fun x => x = a).
Proof.
  intros s. exists []. simpl. rewrite app_nil_r. auto.
Qed.

Lemma ensures_logger_info r :
  @ensures World Exn unit (logger_info r) (fun _ => True).
Proof.
  intros s. exists [Logged r]. simpl. auto.
Qed.

Lemma ensures_llm_ainvoke messages :
  ensures (llm_ainvoke ainvoke messages) (fun _ => True).
Proof.
  intros s. unfold llm_ainvoke.
  destruct (ainvoke messages (world s)) as [[c|e] w]; simpl.
  - exists [Invoke messages (Content c)]. simpl. auto.
  - exists [Invoke messages (Raised e)]. simpl. auto.
Qed.

Lemma ensures_bind {A B} (m : M World Exn A) (k : A -> M World Exn B)
      (Q : A -> Prop) (R : B -> Prop) :
  ensures m Q -> (forall a, Q a -> ensures (k a) R) ->
  ensures (bind m k) R.
Proof.
  intros Hm Hk s. unfold bind.
  destruct (Hm s) as (evs & Ht & Hr).
  destruct (m s) as [[a|e|] s1]; simpl in *.
  - destruct Hr as [He Ha].
    destruct (Hk a Ha s1) as (evs' & Ht' & Hr').
    exists (evs ++ evs'). rewrite Ht', Ht, app_assoc. split; [reflexivity|].
    rewrite errors_app, He. exact Hr'.
  - exists evs. auto.
  - contradiction.
Qed.

Lemma ensures_weaken {A} (m : M World Exn A) (Q R : A -> Prop) :
  ensures m Q -> (forall a, Q a -> R a) -> ensures m R.
Proof.
  intros Hm HQ s. destruct (Hm s) as (evs & Ht & Hr).
  exists evs. split; [exact Ht|].
  destruct (fst (m s)); auto. destruct Hr; auto.
Qed.

(** The awaitables of a fan-out of calls, none of them answered. *)
Lemma call_slots_pending {X} (f : X -> list message) (xs : list X) :
  map Pending (map (fun x => llm_ainvoke ainvoke (f x)) xs)
  = map (call_slot ainvoke) (map (fun x => (f x, None)) xs).
Proof. rewrite !map_map. reflexivity. Qed.

Lemma events_call_slots cells :
  flat_map (@events World Exn str) (map (call_slot ainvoke) cells)
  = observed (map fst cells) (map snd cells).
Proof.
  unfold observed.
  induction cells as [|[p [r|]] cells IH]; cbn; [reflexivity| |exact IH].
  now rewrite IH.
Qed.

Lemma errors_observed cells :
  errors (observed (map fst cells) (map snd cells)) = raised cells.
Proof.
  unfold observed.
  induction cells as [|[p [[c|e]|]] cells IH]; cbn; auto.
  now rewrite IH.
Qed.

Lemma pending_call_slots cells :
  pending (map (call_slot ainvoke) cells) = unanswered cells.
Proof.
  induction cells as [|[p [r|]] cells IH]; cbn; auto.
Qed.

Lemma failed_call_slots cells :
  failed (map (call_slot ainvoke) cells) = false <-> raised cells = [].
Proof.
  induction cells as [|[p [[c|e]|]] cells IH]; cbn; try exact IH;
    [tauto|]. split; discriminate.
Qed.

(** Whether the call of number [k] among the unanswered ones is
    answered: the other cells stay as they are. *)
Lemma complete_cells k cells w :
  exists cells',
    complete k (map (call_slot ainvoke) cells) w
    = (map (call_slot ainvoke) cells',
       snd (complete k (map (call_slot ainvoke) cells) w))
    /\ map fst cells' = map fst cells
    /\ (unanswered cells <= k \/
        (S (unanswered cells') = unanswered cells
         /\ (raised cells = [] ->
             raised cells' = []
             \/ exists e, raised cells' = [e]))).
Proof.
  revert k. induction cells as [|[p [r|]] cells IH]; intros k.
  - exists []. cbn. split; [reflexivity|]. split; [reflexivity|].
    left. lia.
  - destruct (IH k) as (cells' & E & F & U).
    exists ((p, Some r) :: cells'). cbn [map call_slot fst snd complete].
    change (map (call_slot ainvoke) cells)
      with (map (call_slot ainvoke) cells) in *.
    rewrite E. cbn [fst snd map]. split; [reflexivity|].
    split; [now rewrite F|].
    destruct U as [U | [U R]]; [left; cbn; exact U|].
    right. cbn [unanswered]. split; [exact U|].
    destruct r as [c|e]; cbn [raised]; [exact R|]. discriminate.
  - destruct k as [|k].
    + destruct (ainvoke p w) as [r w1] eqn:A.
      exists ((p, Some r) :: cells).
      cbn [map call_slot fst snd complete]. unfold llm_ainvoke.
      cbn [world trace]. rewrite A. cbn [app fst snd].
      split; [reflexivity|]. split; [reflexivity|]. right.
      cbn [unanswered]. split; [reflexivity|].
      cbn [raised]. intros R. destruct r as [c|e]; [now left|].
      right. exists e. now rewrite R.
    + destruct (IH k) as (cells' & E & F & U).
      exists ((p, None) :: cells').
      cbn [map call_slot fst snd complete].
      rewrite E. cbn [fst snd map]. split; [reflexivity|].
      split; [now rewrite F|].
      destruct U as [U | [U R]]; [left; cbn; lia|].
      right. cbn [unanswered raised]. split; [now rewrite U | exact R].
Qed.

(** The race ends with every call answered and none raised, or with
    one call raised. *)
Lemma race_cells fuel cells w :
  raised cells = [] -> unanswered cells <= fuel ->
  exists cells',
    race next_done fuel (map (call_slot ainvoke) cells) w
    = (map (call_slot ainvoke) cells',
       snd (race next_done fuel (map (call_slot ainvoke) cells) w))
    /\ map fst cells' = map fst cells
    /\ ((raised cells' = [] /\ unanswered cells' = 0)
        \/ exists e, raised cells' = [e]).
Proof.
  revert cells w. induction fuel as [|fuel IH]; intros cells w R U.
  - exists cells. cbn [race fst snd]. split; [reflexivity|].
    split; [reflexivity|]. left. split; [exact R | lia].
  - cbn [race]. rewrite (proj2 (failed_call_slots cells) R).
    rewrite pending_call_slots.
    destruct (unanswered cells) as [|n] eqn:N.
    + exists cells. cbn [fst snd]. split; [reflexivity|].
      split; [reflexivity|]. left. auto.
    + set (k := next_done w (S n) mod S n).
      assert (K : k < S n) by (apply Nat.mod_upper_bound; lia).
      destruct (complete_cells k cells w) as (cells1 & E & F & C).
      rewrite E. set (w1 := snd (complete k _ w)).
      destruct C as [C | [C R1]]; [lia|].
      destruct (R1 R) as [R2 | [e R2]].
      * destruct (IH cells1 w1 R2) as (cells' & E' & F' & C'); [lia|].
        exists cells'. split; [exact E'|]. split; [now rewrite F'|].
        exact C'.
      * exists cells1. destruct fuel as [|fuel'].
        -- cbn [race fst snd]. split; [reflexivity|].
           split; [exact F|]. right. now exists e.
        -- cbn [race].
           destruct (failed (map (call_slot ainvoke) cells1)) eqn:Fl.
           ++ cbn [fst snd]. split; [reflexivity|].
              split; [exact F|]. right. now exists e.
           ++ apply failed_call_slots in Fl. rewrite Fl in R2.
              discriminate R2.
Qed.

(** What the awaiting coroutine gets of the calls of a fan-out. *)
Lemma collect_answered cells :
  raised cells = [] -> unanswered cells = 0 ->
  exists l,
    map snd cells = map (fun c => Some (Content c)) l
    /\ collect (map (call_slot ainvoke) cells) = Return l.
Proof.
  induction cells as [|[p [[c|e]|]] cells IH]; cbn; intros R U;
    try discriminate.
  - now exists [].
  - destruct (IH R U) as (l & E1 & E2). exists (c :: l).
    cbn [map]. rewrite E1, E2. auto.
Qed.

Lemma collect_raised cells e :
  raised cells = [e] -> collect (map (call_slot ainvoke) cells) = Raise e.
Proof.
  induction cells as [|[p [[c|e']|]] cells IH]; cbn; intros R;
    try discriminate.
  - now rewrite (IH R).
  - now injection R as ->.
  - now rewrite (IH R).
Qed.

(** A fan-out of calls, one per element of [xs].  The trace grows by
    the calls that were answered, in the order of [xs].  When the
    fan-out returns, every call was answered and the results are the
    answers, in the order of [xs]; when it raises, one call has raised,
    and the exception is that one. *)
Lemma gather_calls {X} (f : X -> list message) (xs : list X) s :
  exists seen,
    length seen = length xs
    /\ trace (snd (gather next_done
                     (map (fun x => llm_ainvoke ainvoke (f x)) xs) s))
       = trace s ++ observed (map f xs) seen
    /\ match fst (gather next_done
                    (map (fun x => llm_ainvoke ainvoke (f x)) xs) s) with
       | Return l => seen = map (fun c => Some (Content c)) l
       | Raise e => errors (observed (map f xs) seen) = [e]
       | OutOfFuel => False
       end.
Proof.
  unfold gather. rewrite call_slots_pending, !length_map.
  set (cells := map (fun x => (f x, @None (outcome Exn))) xs).
  assert (R : raised cells = []).
  { subst cells. induction xs as [|x xs IH]; [reflexivity | exact IH]. }
  assert (U : unanswered cells <= length xs).
  { subst cells. clear R. induction xs as [|x xs IH];
      cbn [map unanswered length] in *; lia. }
  assert (P : map fst cells = map f xs).
  { subst cells. rewrite map_map. reflexivity. }
  destruct (race_cells (length xs) cells (world s) R U)
    as (cells' & E & F & C).
  rewrite E. cbn [fst snd trace]. exists (map snd cells').
  rewrite events_call_slots, F, P.
  split.
  { rewrite length_map, <- (length_map fst), F, P. apply length_map. }
  split; [reflexivity|].
  rewrite <- P, <- F, errors_observed.
  destruct C as [[R' U'] | [e R']].
  - destruct (collect_answered cells' R' U') as (l & E1 & E2).
    now rewrite E2.
  - now rewrite (collect_raised cells' e R').
Qed.

Lemma ensures_gather_invoke {X} (f : X -> list message) xs :
  ensures (gather next_done (map (fun x => llm_ainvoke ainvoke (f x)) xs))
          (fun l => length l = length xs).
Proof.
  intros s. destruct (gather_calls f xs s) as (seen & L & T & R).
  exists (observed (map f xs) seen). split; [exact T|].
  destruct (fst (gather next_done _ s)) as [l|e|]; [|exact R|exact R].
  subst seen. rewrite observed_contents, errors_invocations_content.
  split; [reflexivity|]. now rewrite length_map in L.
Qed.

(** A fan-out that returns: every call was answered, and the results
    are the answers in the order of the calls. *)
Lemma gather_returns {X} (f : X -> list message) xs s l s' :
  gather next_done (map (fun x => llm_ainvoke ainvoke (f x)) xs) s
  = (Return l, s') ->
  length l = length xs
  /\ trace s' = trace s ++ invocations (map f xs) (map Content l).
Proof.
  intros H. destruct (gather_calls f xs s) as (seen & L & T & R).
  rewrite H in T, R. cbn [fst snd] in T, R. subst seen.
  rewrite length_map in L. rewrite observed_contents in T. auto.
Qed.

(** One pass that returns: the record of the pass, then one call per
    batch, in the order of the batches, each with its answer. *)
Lemma reduce_pass_returns cs s l s' :
  reduce_pass ainvoke next_done cs s = (Return l, s') ->
  length l = length (batches_of cs)
  /\ trace s'
     = trace s
       ++ Logged (HierarchicalReduce (length cs) max_summaries_per_reduce)
          :: invocations (map reduce_messages (batches_of cs))
               (map Content l).
Proof.
  unfold reduce_pass, bind, logger_info, record. cbn [fst snd].
  change (map (_combine_summaries ainvoke) (batches_of cs))
    with (map (fun b => llm_ainvoke ainvoke (reduce_messages b))
              (batches_of cs)).
  intros H. apply gather_returns in H as [L T]. cbn [trace] in T.
  split; [exact L|]. now rewrite T, <- app_assoc.
Qed.

Lemma ensures_reduce_pass cs :
  ensures (reduce_pass ainvoke next_done cs)
          (fun l => length l = ceil_div (length cs) max_summaries_per_reduce).
Proof.
  unfold reduce_pass.
  apply ensures_bind with (Q := fun _ => True);
    [apply ensures_logger_info|]. intros _ _.
  eapply ensures_weaken; [apply (ensures_gather_invoke reduce_messages)|].
  intros l H. cbv beta in H. now rewrite H, length_batches_of.
Qed.

(** The loop ends: fuel for as many passes as there are summaries is
    never used up. *)
Lemma ensures_reduce_loop fuel cs :
  length cs <= fuel ->
  ensures (reduce_loop ainvoke next_done fuel cs)
          (fun l => length l <= max_summaries_per_reduce).
Proof.
  revert cs. induction fuel as [|fuel IH]; intros cs L; simpl.
  - destruct (Nat.ltb_spec max_summaries_per_reduce (length cs)) as [G|G].
    + unfold max_summaries_per_reduce in G. lia.
    + eapply ensures_weaken; [apply ensures_ret|].
      now intros l ->.
  - destruct (Nat.ltb_spec max_summaries_per_reduce (length cs)) as [G|G].
    + eapply ensures_bind; [apply ensures_reduce_pass|].
      intros l H. apply IH. cbv beta in H. rewrite H.
      unfold max_summaries_per_reduce in *.
      pose proof (ceil_div_lt (length cs)). lia.
    + eapply ensures_weaken; [apply ensures_ret|].
      now intros l ->.
Qed.

Lemma ensures_reduce_phase cs :
  ensures (reduce_phase ainvoke next_done cs) (fun _ => True).
Proof.
  unfold reduce_phase.
  eapply ensures_bind; [apply ensures_reduce_loop; apply le_n|].
  intros l _.
  eapply ensures_bind; [apply ensures_logger_info|]. intros _ _.
  apply ensures_llm_ainvoke.
Qed.

Lemma ensures_summarize_text text :
  ensures (summarize_text ainvoke next_done split_text text)
          (fun _ => True).
Proof.
  unfold summarize_text.
  destruct (negb (truthy text) || negb (truthy (strip text))).
  - eapply ensures_weaken; [apply ensures_ret|]. auto.
  - simpl.
    eapply ensures_bind; [apply ensures_logger_info|]. intros _ _.
    destruct (length (split_text_into_chunks split_text text) <=? 1).
    + eapply ensures_bind; [apply ensures_logger_info|]. intros _ _.
      apply ensures_llm_ainvoke.
    + eapply ensures_bind; [apply ensures_logger_info|]. intros _ _.
      eapply ensures_bind;
        [apply (ensures_gather_invoke map_messages)|].
      intros l _. apply ensures_reduce_phase.
Qed.

Lemma reduce_loop_step fuel cs :
  max_summaries_per_reduce < length cs ->
  reduce_loop ainvoke next_done (S fuel) cs =
  bind (reduce_pass ainvoke next_done cs)
       (reduce_loop ainvoke next_done fuel).
Proof.
  intros G. apply Nat.ltb_lt in G. simpl. now rewrite G.
Qed.

Lemma reduce_loop_done fuel cs :
  length cs <= max_summaries_per_reduce ->
  reduce_loop ainvoke next_done fuel cs = ret cs.
Proof.
  intros G. apply Nat.ltb_ge in G. destruct fuel; simpl; now rewrite G.
Qed.

(** Any fuel that covers the summaries gives the same run. *)
Lemma reduce_loop_fuel fuel1 fuel2 cs s :
  length cs <= fuel1 -> length cs <= fuel2 ->
  reduce_loop ainvoke next_done fuel1 cs s
  = reduce_loop ainvoke next_done fuel2 cs s.
Proof.
  revert fuel2 cs s. induction fuel1 as [|fuel1 IH]; intros fuel2 cs s L1 L2.
  - rewrite !reduce_loop_done
      by (unfold max_summaries_per_reduce; lia). reflexivity.
  - destruct (Nat.le_gt_cases (length cs) max_summaries_per_reduce)
      as [G|G].
    + now rewrite !reduce_loop_done by exact G.
    + destruct fuel2 as [|fuel2];
        [unfold max_summaries_per_reduce in G; lia|].
      rewrite !reduce_loop_step by exact G. unfold bind.
      destruct (ensures_reduce_pass cs s) as (evs0 & _ & Hl).
      destruct (reduce_pass ainvoke next_done cs s) as [[l|e|] s1];
        [|reflexivity|reflexivity].
      cbn [fst] in Hl. destruct Hl as [_ Hl].
      pose proof (ceil_div_lt (length cs)) as Hlt.
      unfold max_summaries_per_reduce in *.
      apply IH; lia.
Qed.

(** The counts the passes of the loop log, when the loop returns. *)
Lemma reduce_loop_chain fuel cs s cs' s' :
  length cs <= fuel ->
  reduce_loop ainvoke next_done fuel cs s = (Return cs', s') ->
  exists evs,
    trace s' = trace s ++ evs /\ finals evs = 0 /\
    reduction_chain (length cs) (passes evs) (length cs').
Proof.
  revert cs s. induction fuel as [|fuel IH]; intros cs s L H.
  - rewrite reduce_loop_done in H
      by (unfold max_summaries_per_reduce; lia).
    injection H as <- <-. exists []. rewrite app_nil_r. simpl.
    unfold max_summaries_per_reduce. repeat split. lia.
  - destruct (Nat.le_gt_cases (length cs) max_summaries_per_reduce)
      as [G|G].
    + rewrite reduce_loop_done in H by exact G.
      injection H as <- <-. exists []. rewrite app_nil_r. simpl. auto.
    + rewrite reduce_loop_step in H by exact G. unfold bind in H.
      destruct (reduce_pass ainvoke next_done cs s) as [[l|e|] s1] eqn:P;
        try discriminate.
      apply reduce_pass_returns in P as [Hl Ht1].
      rewrite length_batches_of in Hl.
      assert (Hlt : ceil_div (length cs) max_summaries_per_reduce
                    < length cs)
        by (apply ceil_div_lt; unfold max_summaries_per_reduce in G; lia).
      apply IH in H; [|rewrite Hl; lia].
      destruct H as (evs & Ht & Hf & Hc).
      eexists. split; [rewrite Ht, Ht1, <- app_assoc; reflexivity|].
      rewrite finals_app, passes_app. simpl.
      rewrite finals_invocations, passes_invocations. simpl.
      rewrite Hl in Hc. auto.
Qed.

(** The reduce phase, when it returns: the passes of the loop, then one
    final step. *)
Lemma reduce_phase_chain cs s final s' :
  reduce_phase ainvoke next_done cs s = (Return final, s') ->
  exists evs last,
    trace s' = trace s ++ evs /\ finals evs = 1 /\
    reduction_chain (length cs) (passes evs) last.
Proof.
  unfold reduce_phase, bind. intros H.
  destruct (reduce_loop ainvoke next_done (length cs) cs s)
    as [[l|e|] s1] eqn:E; try discriminate.
  apply reduce_loop_chain in E; [|apply le_n].
  destruct E as (evs & Ht & Hf & Hc).
  unfold logger_info, record, _combine_summaries, llm_ainvoke in H.
  simpl in H.
  destruct (ainvoke (reduce_messages l) (world s1)) as [response w].
  injection H as _ <-. simpl.
  eexists. exists (length l).
  split; [rewrite Ht, <- !app_assoc; reflexivity|].
  rewrite finals_app, passes_app. simpl. rewrite Hf, app_nil_r. auto.
Qed.

(** A chain of [p] passes starts from more than [10 ^ p] and at most
    [10 ^ (p + 1)] summaries. *)
Lemma reduction_chain_log n logged last :
  max_summaries_per_reduce < n ->
  reduction_chain n logged last ->
  10 ^ length logged < n <= 10 ^ S (length logged).
Proof.
  revert n. induction logged as [|m logged IH]; intros n G H;
    cbn [reduction_chain] in H.
  - lia.
  - destruct H as (_ & _ & _ & H).
    unfold max_summaries_per_reduce in *.
    destruct logged as [|m' logged'].
    + cbn [reduction_chain] in H. destruct H as [_ H].
      unfold max_summaries_per_reduce in H.
      apply ceil_div_le in H. cbn [length].
      rewrite !Nat.pow_succ_r', Nat.pow_0_r. lia.
    + assert (G' : 10 < ceil_div n 10)
        by (cbn [reduction_chain] in H; apply H).
      apply IH in H; [|exact G'].
      set (k := length (m' :: logged')) in *.
      change (length (m :: m' :: logged')) with (S k).
      destruct H as [Hlo Hhi].
      apply (proj1 (ceil_div_le n (10 ^ S k))) in Hhi.
      assert (Hn : ~ n <= 10 * 10 ^ k)
        by (intros C; apply ceil_div_le in C; lia).
      rewrite !Nat.pow_succ_r'. rewrite Nat.pow_succ_r' in Hhi. lia.
Qed.

(** C6. A text that is empty or holds whitespace only is answered with
    the fixed string "No content to summarize.": the run returns it, it
    does not raise, and the state is left as it was, so no call is made
    to the model. *)
Theorem blank_text_yields_sentinel (text : str) (s : state World Exn) :
  forallb isspace text = true ->
  summarize_text ainvoke next_done split_text text s
  = (Return (lit "No content to summarize."), s)
  /\ calls (trace (snd (summarize_text ainvoke next_done split_text
                          text s)))
     = calls (trace s).
Proof.
  intros H. apply blank_guard in H.
  unfold summarize_text. rewrite H. split; reflexivity.
Qed.

(** C7. When the chunker returns exactly one chunk, the run makes one
    call to the model, the map call whose human message is "Summarize
    this section:" followed by the chunk, and no other call; what the
    run gives back is the outcome of that call. *)
Theorem single_chunk_single_call
  (text chunk : str) (w : World) (r : result Exn str) (s' : state World Exn) :
  split_text_into_chunks split_text text = [chunk] ->
  summarize_text ainvoke next_done split_text text (start Exn w)
  = (r, s') ->
  exists response,
    ainvoke (map_messages chunk) w = (response, world s') /\
    calls (trace s') = [(map_messages chunk, response)] /\
    r = result_of response.
Proof.
  intros Hc H. unfold summarize_text in H.
  assert (G : negb (truthy text) || negb (truthy (strip text)) = false).
  { unfold split_text_into_chunks in Hc.
    destruct (negb (truthy text) || negb (truthy (strip text)));
      [discriminate | reflexivity]. }
  rewrite G, Hc in H.
  unfold bind, logger_info, record, _summarize_chunk, llm_ainvoke in H.
  simpl in H.
  destruct (ainvoke (map_messages chunk) w) as [response w'].
  injection H as <- <-. exists response. simpl. auto.
Qed.

(** C4. When a call to the model raises during a run, the run raises:
    what the caller gets is an exception raised by one of the calls of
    the run, never a summary, whatever the other calls answered. *)
Theorem generation_error_aborts_run
  (text : str) (w : World) (r : result Exn str) (s' : state World Exn)
  (e : Exn) :
  summarize_text ainvoke next_done split_text text (start Exn w)
  = (r, s') ->
  In e (errors (trace s')) ->
  exists e', In e' (errors (trace s')) /\ r = Raise e'.
Proof.
  intros H He.
  destruct (ensures_summarize_text text (start Exn w)) as (evs & Ht & Hr).
  rewrite H in Ht, Hr. simpl in Ht, Hr. subst evs.
  destruct r as [a|e'|].
  - destruct Hr as [Hr _]. rewrite Hr in He. contradiction.
  - exists e'. rewrite Hr. split; [now left | reflexivity].
  - contradiction.
Qed.


(** C2. A reduce phase entered with more than ten summaries ends, by a
    return or by an exception of a call, and never by want of fuel.
    When it returns, the passes of its loop form a chain: each one
    finds more than ten summaries, and leaves a tenth of them, rounded
    up, which is fewer; the loop is left with at most ten, and one
    final step follows.  The passes and the final step together are
    [q] with [10 ^ (q - 1) < n <= 10 ^ q] for the [n] summaries the
    phase was entered with, that is [q] is the logarithm of [n] in base
    ten, rounded up. *)
Theorem reduce_phase_terminates_in_log_passes
  (cs : list str) (s : state World Exn)
  (r : result Exn str) (s' : state World Exn) :
  max_summaries_per_reduce < length cs ->
  reduce_phase ainvoke next_done cs s = (r, s') ->
  r <> OutOfFuel
  /\ forall final, r = Return final ->
     exists evs last,
       trace s' = trace s ++ evs /\
       reduction_chain (length cs) (passes evs) last /\
       finals evs = 1 /\
       10 ^ (length (passes evs) + finals evs - 1) < length cs
       /\ length cs <= 10 ^ (length (passes evs) + finals evs).
Proof.
  intros G H. split.
  - destruct (ensures_reduce_phase cs s) as (evs & _ & Hr).
    rewrite H in Hr. simpl in Hr. intros ->. exact Hr.
  - intros final ->. apply reduce_phase_chain in H.
    destruct H as (evs & last & Ht & Hf & Hc).
    exists evs, last. split; [exact Ht|]. split; [exact Hc|].
    split; [exact Hf|].
    apply reduction_chain_log in Hc; [|exact G].
    rewrite Hf. replace (length (passes evs) + 1 - 1)
      with (length (passes evs)) by lia.
    replace (length (passes evs) + 1) with (S (length (passes evs)))
      by lia.
    exact Hc.
Qed.

Lemma chunks_guard (text : str) :
  split_text_into_chunks split_text text <> [] ->
  negb (truthy text) || negb (truthy (strip text)) = false.
Proof.
  unfold split_text_into_chunks.
  destruct (negb (truthy text) || negb (truthy (strip text)));
    [intros H; now contradiction H | reflexivity].
Qed.

(** The reduce phase on fifteen summaries, when none of its calls
    raises: one pass of two batches, then the final step on the two
    answers. *)
Lemma reduce_phase_15 (sums : list str) (s : state World Exn)
      (r : result Exn str) (s' : state World Exn) :
  length sums = 15 ->
  reduce_phase ainvoke next_done sums s = (r, s') ->
  errors (trace s') = errors (trace s) ->
  exists first second final,
    trace s' =
    trace s
    ++ [ Logged (HierarchicalReduce 15 10);
         Invoke (reduce_messages (firstn 10 sums)) (Content first);
         Invoke (reduce_messages (skipn 10 sums)) (Content second);
         Logged FinalReduce;
         Invoke (reduce_messages [first; second]) (Content final) ]
    /\ r = Return final.
Proof.
  intros L H E. unfold reduce_phase in H. rewrite L in H.
  rewrite reduce_loop_step in H
    by (rewrite L; unfold max_summaries_per_reduce; lia).
  unfold bind at 1 2 in H.
  destruct (ensures_reduce_pass sums s) as (evs0 & Ht0 & Hr0).
  destruct (reduce_pass ainvoke next_done sums s) as [[l|e|] s1] eqn:P;
    cbn [fst snd] in Ht0, Hr0; [| |contradiction].
  - apply reduce_pass_returns in P as [Ll Ht1].
    rewrite (batches_of_15 sums L) in Ht1, Ll. rewrite L in Ht1.
    cbn [length] in Ll.
    destruct l as [|first [|second [|third l]]]; try discriminate Ll.
    cbn [map invocations combine] in Ht1.
    rewrite reduce_loop_done in H
      by (cbn; unfold max_summaries_per_reduce; lia).
    unfold ret, bind, logger_info, record, _combine_summaries,
      llm_ainvoke in H.
    cbn [fst snd world trace] in H.
    destruct (ainvoke (reduce_messages [first; second]) (world s1))
      as [[final|e3] w3];
      injection H as <- <-; cbn [trace] in *.
    + exists first, second, final.
      split; [|reflexivity]. rewrite Ht1. now rewrite <- !app_assoc.
    + exfalso. rewrite Ht1, <- !app_assoc in E.
      apply errors_unchanged in E. discriminate E.
  - injection H as <- <-. exfalso. rewrite Ht0 in E.
    apply errors_unchanged in E. rewrite E in Hr0. discriminate Hr0.
Qed.

(** C1. A text that the chunker cuts into exactly fifteen chunks, in a
    run in which no call to the model raises: the run makes eighteen
    calls.  The first fifteen are the map calls, one per chunk in the
    order of the chunks; the loop makes one pass, whose two calls
    combine the first ten and the last five of their answers; the last
    call is the final step on the two answers of the pass, and its
    answer is what the run returns. *)
Theorem fifteen_chunks_eighteen_calls
  (text : str) (w : World) (r : result Exn str) (s' : state World Exn) :
  length (split_text_into_chunks split_text text) = 15 ->
  summarize_text ainvoke next_done split_text text (start Exn w)
  = (r, s') ->
  errors (trace s') = [] ->
  exists (summaries : list str) (first second final : str),
    length summaries = 15 /\
    calls (trace s') =
      combine (map map_messages (split_text_into_chunks split_text text))
              (map Content summaries)
      ++ [ (reduce_messages (firstn 10 summaries), Content first);
           (reduce_messages (skipn 10 summaries), Content second);
           (reduce_messages [first; second], Content final) ] /\
    length (calls (trace s')) = 18 /\
    passes (trace s') = [15] /\
    r = Return final.
Proof.
  intros L H E.
  assert (G : negb (truthy text) || negb (truthy (strip text)) = false).
  { apply chunks_guard. intros N. rewrite N in L. discriminate L. }
  unfold summarize_text in H. rewrite G in H. cbv zeta in H.
  rewrite L in H. change (15 <=? 1) with false in H. cbv iota in H.
  set (chunks := split_text_into_chunks split_text text) in *.
  unfold bind at 1 2 3, logger_info, record in H.
  cbn [fst snd trace world start app] in H.
  change (map (_summarize_chunk ainvoke) chunks)
    with (map (fun c => llm_ainvoke ainvoke (map_messages c)) chunks) in H.
  set (s0 := mkState w [Logged (DocumentSplit 15); Logged (MapReduce 15)])
    in H.
  destruct (ensures_gather_invoke map_messages chunks s0)
    as (evs0 & Ht0 & Hr0).
  destruct (gather next_done _ s0) as [[sums|e|] s1] eqn:Gm;
    cbn [fst snd] in Ht0, Hr0; [| |contradiction].
  - apply gather_returns in Gm as [Lr Ht1]. rewrite L in Lr.
    subst s0. cbn [trace] in Ht1.
    apply reduce_phase_15 in H; [|exact Lr|].
    + destruct H as (first & second & final & Ht & ->).
      exists sums, first, second, final.
      rewrite Ht, Ht1.
      split; [exact Lr|].
      rewrite !calls_app, !passes_app. cbn [calls passes app].
      rewrite calls_invocations, passes_invocations.
      split; [reflexivity|]. split; [|split; reflexivity].
      rewrite length_app, length_combine, !length_map, L, Lr.
      reflexivity.
    + rewrite E, Ht1, errors_app. cbn [errors app].
      now rewrite errors_invocations_content.
  - injection H as <- <-. exfalso. rewrite Ht0 in E.
    rewrite errors_app, Hr0 in E. subst s0. cbn [trace errors app] in E.
    discriminate E.
Qed.

(** Whatever the splitter, as long as it gives at least one chunk for
    a text of more than [CHUNK_SIZE] characters: a text whose trimmed
    form is not empty gives at least one chunk, the test of [chunks[0]
    if chunks else text] takes its first branch, and on the path of at
    most one chunk the list is that one chunk and the run is the map
    call on it. *)
Lemma chunk_list_nonempty_if (text : str) (s : state World Exn) :
  strip text <> [] ->
  (CHUNK_SIZE < length (strip text) ->
   split_text CHUNK_SIZE CHUNK_OVERLAP separators (strip text) <> []) ->
  split_text_into_chunks split_text text <> []
  /\ truthy (split_text_into_chunks split_text text) = true
  /\ (length (split_text_into_chunks split_text text) <= 1 ->
      exists chunk,
        split_text_into_chunks split_text text = [chunk] /\
        summarize_text ainvoke next_done split_text text s
        = _summarize_chunk ainvoke chunk
            (mkState (world s)
               (trace s ++ [Logged (DocumentSplit 1); Logged SingleChunk]))).
Proof.
  intros Hne Hlib.
  assert (N : split_text_into_chunks split_text text <> []).
  { destruct (Nat.le_gt_cases (length (strip text)) CHUNK_SIZE) as [Hs|Hl].
    - rewrite (chunks_of_short split_text text Hne Hs). discriminate.
    - rewrite (chunks_of_long split_text text Hl). exact (Hlib Hl). }
  split; [exact N|]. split.
  - destruct (split_text_into_chunks split_text text);
      [now contradiction N | reflexivity].
  - intros L1. unfold summarize_text.
    rewrite (nonblank_guard text Hne). cbv zeta.
    destruct (split_text_into_chunks split_text text) as [|chunk [|c2 l]];
      [now contradiction N| |simpl in L1; lia].
    exists chunk. split; [reflexivity|].
    unfold bind, logger_info, record. cbn. now rewrite <- app_assoc.
Qed.

End Run.


End SummarizerFacts.
(* ===================================================================== *)
(** ** The rate limiter: tokens and windows *)
(* ===================================================================== *)

Module RateLimiterFacts.

Import RateLimiter.

(** Products are handed to [lia] as atoms. *)
Ltac atoms :=
  repeat match goal with
         | |- context [?x * ?y] =>
             let p := fresh "p" in set (p := x * y) in *; clearbody p
         | H : context [?x * ?y] |- _ =>
             let p := fresh "p" in set (p := x * y) in *; clearbody p
         | |- context [refill ?b ?st ?now] =>
             let r := fresh "r" in
             set (r := refill b st now) in *; clearbody r
         | H : context [refill ?b ?st ?now] |- _ =>
             let r := fresh "r" in
             set (r := refill b st now) in *; clearbody r
         end.

Ltac arith :=
  atoms;
  repeat match goal with
         | H : in_time_order _ _ |- _ => clear H
         end;
  lia.

Section Bucket.

Context {Caller : Type}.
Variable b : bucket.

Implicit Types looks : list (Caller * nat).

Lemma refill_bounded st now :
  refill b st now <= capacity b * rate_den b.
Proof. unfold refill. apply Nat.le_min_l. Qed.

Lemma refill_adds st now :
  refill b st now <= level st + rate_num b * (now - last_refill st).
Proof. unfold refill. apply Nat.le_min_r. Qed.

(** What a look leaves: the time of the look, a level within the
    capacity, and one token more granted when it grants one. *)
Lemma attempt_spec st now :
  last_refill (snd (attempt b st now)) = now
  /\ level (snd (attempt b st now)) <= capacity b * rate_den b
  /\ match fst (attempt b st now) with
     | Some tok =>
         tok = issued st
         /\ issued (snd (attempt b st now)) = S (issued st)
         /\ level (snd (attempt b st now)) + rate_den b
            = refill b st now
     | None =>
         issued (snd (attempt b st now)) = issued st
         /\ level (snd (attempt b st now)) = refill b st now
     end.
Proof.
  unfold attempt. cbv zeta. pose proof (refill_bounded st now) as B.
  destruct (Nat.leb_spec (rate_den b) (refill b st now)) as [G|G];
    cbn [fst snd last_refill level issued]; repeat split; arith.
Qed.

(** The tokens of a run are numbered from the count of the tokens
    granted before it, upwards. *)
Lemma run_tokens st looks :
  forall g, In g (run b st looks) -> issued st <= token g.
Proof.
  revert st. induction looks as [|[who now] looks IH]; intros st g H;
    cbn [run] in H; [contradiction|].
  destruct (attempt_spec st now) as (_ & _ & A).
  destruct (attempt b st now) as [[tok|] st']; cbn [fst snd] in A.
  - destruct A as (-> & I & _). destruct H as [<- | H].
    + cbn [token]. lia.
    + apply IH in H. lia.
  - destruct A as (I & _). apply IH in H. lia.
Qed.

Lemma run_tokens_differ st looks :
  NoDup (map (@token Caller) (run b st looks)).
Proof.
  revert st. induction looks as [|[who now] looks IH]; intros st;
    cbn [run]; [constructor|].
  destruct (attempt_spec st now) as (_ & _ & A).
  destruct (attempt b st now) as [[tok|] st'] eqn:E; cbn [fst snd] in A;
    [|apply IH].
  destruct A as (-> & I & _). cbn [map token]. constructor; [|apply IH].
  intros H. apply in_map_iff in H as (g & Hg & H).
  apply run_tokens in H. lia.
Qed.

(** Past the window, nothing completes in it. *)
Lemma completed_after from span st looks :
  from + span < last_refill st ->
  in_time_order (last_refill st) looks ->
  completed_within from span (run b st looks) = 0.
Proof.
  revert st. induction looks as [|[who now] looks IH]; intros st P O;
    cbn [run]; [reflexivity|].
  cbn [in_time_order] in O. destruct O as [O1 O2].
  destruct (attempt_spec st now) as (T & _ & _).
  destruct (attempt b st now) as [[tok|] st']; cbn [fst snd] in T;
    subst now.
  - unfold completed_within in *. cbn [filter time].
    destruct (Nat.leb_spec (last_refill st') (from + span)); [lia|].
    rewrite andb_false_r. apply IH; [lia | exact O2].
  - apply IH; [lia | exact O2].
Qed.

Lemma completed_late from span st who now looks :
  from + span < now ->
  in_time_order now looks ->
  completed_within from span (run b st ((who, now) :: looks)) = 0.
Proof.
  intros W O. cbn [run]. destruct (attempt_spec st now) as (T & _ & _).
  destruct (attempt b st now) as [[tok|] st']; cbn [fst snd] in T;
    subst now.
  - unfold completed_within. cbn [filter time].
    destruct (Nat.leb_spec (last_refill st') (from + span)); [lia|].
    rewrite andb_false_r.
    apply (completed_after from span st' looks); [lia | exact O].
  - apply (completed_after from span st' looks); [lia | exact O].
Qed.

(** From a look made in the window on, the acquisitions that complete
    in the window are paid by the level of the bucket and by what the
    rate gives until the window ends. *)
Lemma completed_inside from span st looks :
  from <= last_refill st ->
  in_time_order (last_refill st) looks ->
  rate_den b * completed_within from span (run b st looks)
  <= level st + rate_num b * (from + span - last_refill st).
Proof.
  revert st. induction looks as [|[who now] looks IH]; intros st P O;
    cbn [run];
    [unfold completed_within; cbn [filter length];
     rewrite Nat.mul_0_r; apply Nat.le_0_l|].
  cbn [in_time_order] in O. destruct O as [O1 O2].
  destruct (attempt_spec st now) as (T & _ & A).
  pose proof (refill_adds st now) as R.
  destruct (Nat.le_gt_cases now (from + span)) as [W|W].
  - assert (M : rate_num b * (now - last_refill st)
                + rate_num b * (from + span - now)
                = rate_num b * (from + span - last_refill st))
      by (rewrite <- Nat.mul_add_distr_l; f_equal; lia).
    destruct (attempt b st now) as [[tok|] st']; cbn [fst snd] in T, A;
      subst now; specialize (IH st' ltac:(lia) O2).
    + destruct A as (_ & _ & A).
      unfold completed_within in *. cbn [filter time].
      destruct (Nat.leb_spec from (last_refill st')); [|lia].
      destruct (Nat.leb_spec (last_refill st') (from + span)); [|lia].
      cbn [andb length]. rewrite Nat.mul_succ_r. arith.
    + destruct A as (_ & A). arith.
  - pose proof (completed_late from span st who now looks W O2) as Z.
    cbn [run] in Z. rewrite Z, Nat.mul_0_r. apply Nat.le_0_l.
Qed.

(** C5. Under any number of callers, in any interleaving of their
    looks at the bucket that goes forward in time, and from any state
    of the bucket: no token is granted twice, and in any window of
    [span] ticks the acquisitions that complete are at most the
    capacity and what the rate gives in [span] ticks, that is
    [C + R * T] for the capacity [C], the rate [R] and the span [T].
    The bound is stated on [rate_den]-ths of a token, the rate being
    [rate_num / rate_den]. *)
Theorem grants_within_any_window
  (st : bucket_state) (looks : list (Caller * nat)) (from span : nat) :
  level st <= capacity b * rate_den b ->
  in_time_order (last_refill st) looks ->
  NoDup (map (@token Caller) (run b st looks))
  /\ rate_den b * completed_within from span (run b st looks)
     <= capacity b * rate_den b + rate_num b * span.
Proof.
  intros B O. split; [apply run_tokens_differ|].
  revert st B O. induction looks as [|[who now] looks IH]; intros st B O;
    [unfold completed_within; cbn [run filter length];
     rewrite Nat.mul_0_r; apply Nat.le_0_l|].
  destruct (Nat.le_gt_cases from (last_refill st)) as [P|P].
  - pose proof (completed_inside from span st _ P O) as H.
    assert (rate_num b * (from + span - last_refill st)
            <= rate_num b * span) by (apply Nat.mul_le_mono_l; lia).
    arith.
  - cbn [in_time_order] in O. destruct O as [O1 O2].
    destruct (Nat.le_gt_cases from now) as [Q|Q].
    + destruct (Nat.le_gt_cases now (from + span)) as [W|W].
      * cbn [run].
        destruct (attempt_spec st now) as (T & L & A).
        pose proof (refill_bounded st now) as R.
        assert (M : rate_num b * (from + span - now)
                    <= rate_num b * span)
          by (apply Nat.mul_le_mono_l; lia).
        destruct (attempt b st now) as [[tok|] st']; cbn [fst snd] in T, L, A;
          subst now;
          pose proof (completed_inside from span st' looks Q O2) as H.
        -- destruct A as (_ & _ & A).
           unfold completed_within in *. cbn [filter time].
           destruct (Nat.leb_spec from (last_refill st')); [|lia].
           destruct (Nat.leb_spec (last_refill st') (from + span)); [|lia].
           cbn [andb length]. rewrite Nat.mul_succ_r. arith.
        -- destruct A as (_ & A). arith.
      * pose proof (completed_late from span st who now looks W O2) as Z.
        rewrite Z, Nat.mul_0_r. apply Nat.le_0_l.
    + cbn [run]. destruct (attempt_spec st now) as (T & L & _).
      destruct (attempt b st now) as [[tok|] st']; cbn [fst snd] in T, L;
        subst now.
      * unfold completed_within in *. cbn [filter time].
        destruct (Nat.leb_spec from (last_refill st')); [lia|].
        cbn [andb]. apply IH; [exact L | exact O2].
      * apply IH; [exact L | exact O2].
Qed.

End Bucket.

End RateLimiterFacts.

(* ===================================================================== *)
(** ** The chunker and the orchestrator together *)
(* ===================================================================== *)

Module Pipeline.

Import Chunker Summarizer PyStrFacts ChunkerFacts SplitterFacts
  SummarizerFacts.

Section Run.

Context {World Exn : Type}.
Variable ainvoke : list message -> World -> outcome Exn * World.
Variable next_done : World -> nat -> nat.

(** C10. A text whose trimmed form is not empty gives at least one
    chunk: the list in [chunks[0] if chunks else text] is never empty,
    so [chunks[0]] is defined and the test always takes its first
    branch; on the path of at most one chunk the list is that one chunk,
    and the run is the map call on it.  For a trimmed text of more than
    [CHUNK_SIZE] characters the chunks are those of the splitter
    described in the spec. *)
Theorem nonblank_text_has_a_chunk (text : str) (s : state World Exn) :
  strip text <> [] ->
  split_text_into_chunks recursive_split_text text <> []
  /\ 0 < length (split_text_into_chunks recursive_split_text text)
  /\ truthy (split_text_into_chunks recursive_split_text text) = true
  /\ (length (split_text_into_chunks recursive_split_text text) <= 1 ->
      exists chunk,
        split_text_into_chunks recursive_split_text text = [chunk] /\
        summarize_text ainvoke next_done recursive_split_text text s
        = _summarize_chunk ainvoke chunk
            (mkState (world s)
               (trace s ++ [Logged (DocumentSplit 1); Logged SingleChunk]))).
Proof.
  intros Hne.
  destruct (chunk_list_nonempty_if ainvoke next_done recursive_split_text
              text s Hne) as (N & T & P).
  - intros L Z.
    destruct (recursive_split_text_spec CHUNK_SIZE CHUNK_OVERLAP separators
                (strip text)) as [_ Hs];
      [unfold CHUNK_SIZE; lia | apply separators_end_with_characters |].
    rewrite Z in Hs. apply spans_nil, strip_nil in Hs.
    rewrite strip_idempotent in Hs. contradiction.
  - split; [exact N|]. split; [|split; [exact T | exact P]].
    destruct (split_text_into_chunks recursive_split_text text);
      [now contradiction N | cbn; lia].
Qed.

End Run.

End Pipeline.

(* ===================================================================== *)
(** ** Concrete runs *)
(* ===================================================================== *)

Module Runs.

Import Chunker Summarizer Doubles RateLimiter ChunkerFacts SplitterFacts
  SummarizerFacts RateLimiterFacts Pipeline.

Lemma short_text_is_one_chunk_witness :
  split_text_into_chunks recursive_split_text (lit "  Hello world ")
  = [lit "Hello world"]
  /\ length (split_text_into_chunks recursive_split_text
               (lit "  Hello world ")) = 1.
Proof.
  apply (short_text_is_one_chunk recursive_split_text (lit "  Hello world ")).
  - vm_compute. discriminate.
  - apply Nat.leb_le. vm_compute. reflexivity.
Defined.

Lemma long_text_chunks_span_trimmed_text_witness :
  2 <= length (split_text_into_chunks recursive_split_text (paragraphs 2))
  /\ Forall (fun c => length c <= CHUNK_SIZE)
            (split_text_into_chunks recursive_split_text (paragraphs 2))
  /\ Spans CHUNK_OVERLAP (strip (paragraphs 2))
           (split_text_into_chunks recursive_split_text (paragraphs 2)).
Proof.
  apply (long_text_chunks_span_trimmed_text (paragraphs 2)).
  apply Nat.ltb_lt. vm_compute. reflexivity.
Defined.

(** Three callers and a bucket of one token that gets five tokens a
    minute, full at the start: the looks of the first minute. *)
Lemma grants_within_any_window_witness :
  NoDup (map (@token nat)
           (run (mkBucket 1 5 60) (mkBucketState 60 0 0)
              [(0, 0); (1, 0); (2, 3); (1, 12); (2, 12); (2, 24);
               (0, 30); (0, 36); (1, 48); (2, 60); (0, 61)]))
  /\ rate_den (mkBucket 1 5 60)
     * completed_within 0 60
         (run (mkBucket 1 5 60) (mkBucketState 60 0 0)
            [(0, 0); (1, 0); (2, 3); (1, 12); (2, 12); (2, 24);
             (0, 30); (0, 36); (1, 48); (2, 60); (0, 61)])
     <= capacity (mkBucket 1 5 60) * rate_den (mkBucket 1 5 60)
        + rate_num (mkBucket 1 5 60) * 60.
Proof.
  apply (grants_within_any_window (mkBucket 1 5 60)
           (mkBucketState 60 0 0)
           [(0, 0); (1, 0); (2, 3); (1, 12); (2, 12); (2, 24);
            (0, 30); (0, 36); (1, 48); (2, 60); (0, 61)] 0 60).
  - apply Nat.leb_le. vm_compute. reflexivity.
  - cbn [in_time_order last_refill]. repeat split; lia.
Defined.

Lemma blank_text_yields_sentinel_witness :
  summarize_text steady_llm in_turn recursive_split_text [32; 10; 9]%N
    (start nat 7)
  = (Return (lit "No content to summarize."), start nat 7)
  /\ calls (trace (snd (summarize_text steady_llm in_turn recursive_split_text
                          [32; 10; 9]%N (start nat 7))))
     = calls (trace (start nat 7)).
Proof.
  apply (blank_text_yields_sentinel steady_llm in_turn recursive_split_text
           [32; 10; 9]%N (start nat 7)).
  vm_compute. reflexivity.
Defined.

Lemma single_chunk_single_call_witness :
  exists response,
    steady_llm (map_messages (lit "Hello world")) 0 = (response, 1) /\
    calls (trace (snd (summarize_text steady_llm in_turn recursive_split_text
                         (lit "Hello world") (start nat 0))))
    = [(map_messages (lit "Hello world"), response)] /\
    fst (summarize_text steady_llm in_turn recursive_split_text
           (lit "Hello world") (start nat 0))
    = result_of response.
Proof.
  apply (single_chunk_single_call steady_llm in_turn recursive_split_text
           (lit "Hello world") (lit "Hello world") 0
           (fst (summarize_text steady_llm in_turn recursive_split_text
                   (lit "Hello world") (start nat 0)))
           (snd (summarize_text steady_llm in_turn recursive_split_text
                   (lit "Hello world") (start nat 0)))).
  - vm_compute. reflexivity.
  - apply surjective_pairing.
Defined.

Lemma generation_error_aborts_run_witness :
  exists e',
    In e' (errors (trace (snd (summarize_text (flaky_llm 1) last_first
                                 recursive_split_text (paragraphs 2)
                                 (start nat 0)))))
    /\ fst (summarize_text (flaky_llm 1) last_first recursive_split_text
              (paragraphs 2) (start nat 0))
       = Raise e'.
Proof.
  apply (generation_error_aborts_run (flaky_llm 1) last_first
           recursive_split_text
           (paragraphs 2) 0
           (fst (summarize_text (flaky_llm 1) last_first
                   recursive_split_text
                   (paragraphs 2) (start nat 0)))
           (snd (summarize_text (flaky_llm 1) last_first
                   recursive_split_text
                   (paragraphs 2) (start nat 0)))
           503).
  - apply surjective_pairing.
  - vm_compute. left. reflexivity.
Defined.

Lemma reduce_phase_terminates_in_log_passes_witness :
  fst (reduce_phase steady_llm in_turn (repeat (lit "part") 101) (start nat 0))
  <> OutOfFuel
  /\ forall final,
     fst (reduce_phase steady_llm in_turn (repeat (lit "part") 101)
            (start nat 0))
     = Return final ->
     exists evs last,
       trace (snd (reduce_phase steady_llm in_turn (repeat (lit "part") 101)
                     (start nat 0)))
       = trace (start nat 0) ++ evs /\
       reduction_chain (length (repeat (lit "part") 101)) (passes evs) last /\
       finals evs = 1 /\
       10 ^ (length (passes evs) + finals evs - 1)
       < length (repeat (lit "part") 101)
       /\ length (repeat (lit "part") 101)
          <= 10 ^ (length (passes evs) + finals evs).
Proof.
  apply (reduce_phase_terminates_in_log_passes steady_llm in_turn
           (repeat (lit "part") 101) (start nat 0)
           (fst (reduce_phase steady_llm in_turn (repeat (lit "part") 101)
                   (start nat 0)))
           (snd (reduce_phase steady_llm in_turn (repeat (lit "part") 101)
                   (start nat 0)))).
  - apply Nat.ltb_lt. vm_compute. reflexivity.
  - apply surjective_pairing.
Defined.

Lemma fifteen_chunks_eighteen_calls_witness :
  exists (summaries : list str) (first second final : str),
    length summaries = 15 /\
    calls (trace (snd (summarize_text steady_llm in_turn recursive_split_text
                         (paragraphs 15) (start nat 0)))) =
      combine (map map_messages
                 (split_text_into_chunks recursive_split_text
                    (paragraphs 15)))
              (map Content summaries)
      ++ [ (reduce_messages (firstn 10 summaries), Content first);
           (reduce_messages (skipn 10 summaries), Content second);
           (reduce_messages [first; second], Content final) ] /\
    length (calls (trace (snd (summarize_text steady_llm in_turn
                                 recursive_split_text (paragraphs 15)
                                 (start nat 0))))) = 18 /\
    passes (trace (snd (summarize_text steady_llm in_turn recursive_split_text
                          (paragraphs 15) (start nat 0)))) = [15] /\
    fst (summarize_text steady_llm in_turn recursive_split_text (paragraphs 15)
           (start nat 0))
    = Return final.
Proof.
  apply (fifteen_chunks_eighteen_calls steady_llm in_turn
           recursive_split_text
           (paragraphs 15) 0
           (fst (summarize_text steady_llm in_turn recursive_split_text
                   (paragraphs 15) (start nat 0)))
           (snd (summarize_text steady_llm in_turn recursive_split_text
                   (paragraphs 15) (start nat 0)))).
  - vm_compute. reflexivity.
  - apply surjective_pairing.
  - vm_compute. reflexivity.
Defined.

Lemma nonblank_text_has_a_chunk_witness :
  split_text_into_chunks recursive_split_text (lit " Hello world") <> []
  /\ 0 < length (split_text_into_chunks recursive_split_text
                   (lit " Hello world"))
  /\ truthy (split_text_into_chunks recursive_split_text
               (lit " Hello world")) = true
  /\ (length (split_text_into_chunks recursive_split_text
                (lit " Hello world")) <= 1 ->
      exists chunk,
        split_text_into_chunks recursive_split_text (lit " Hello world")
        = [chunk] /\
        summarize_text steady_llm in_turn recursive_split_text
          (lit " Hello world") (start nat 0)
        = _summarize_chunk steady_llm chunk
            (mkState (world (start nat 0))
               (trace (start nat 0)
                ++ [Logged (DocumentSplit 1); Logged SingleChunk]))).
Proof.
  apply (nonblank_text_has_a_chunk steady_llm in_turn (lit " Hello world")
           (start nat 0)).
  vm_compute. discriminate.
Defined.

End Runs.

(* ===================================================================== *)
(** ** The orchestrator: runs of any size *)
(* ===================================================================== *)

Module OrchestratorFacts.

Import Chunker Summarizer PyStrFacts ChunkerFacts SummarizerFacts.

Section Run.

Context {World Exn : Type}.
Variable ainvoke : list message -> World -> outcome Exn * World.
Variable next_done : World -> nat -> nat.
Variable split_text : nat -> nat -> list str -> str -> list str.

(** With two chunks or more, the run is the two records, the fan-out of
    the map calls and the reduce phase. *)
Lemma summarize_text_fan_out (text : str) (s : state World Exn) :
  2 <= length (split_text_into_chunks split_text text) ->
  summarize_text ainvoke next_done split_text text s =
  bind (gather next_done
          (map (fun c => llm_ainvoke ainvoke (map_messages c))
               (split_text_into_chunks split_text text)))
       (reduce_phase ainvoke next_done)
       (mkState (world s)
          (trace s
           ++ [ Logged (DocumentSplit
                          (length (split_text_into_chunks split_text text)));
                Logged (MapReduce
                          (length (split_text_into_chunks split_text text)))
              ])).
Proof.
  intros L.
  assert (G : negb (truthy text) || negb (truthy (strip text)) = false).
  { apply (chunks_guard split_text). intros N. rewrite N in L.
    cbn in L. lia. }
  unfold summarize_text. rewrite G. cbv zeta.
  destruct (Nat.leb_spec (length (split_text_into_chunks split_text text)) 1)
    as [C|C]; [lia|].
  unfold bind at 1 2, logger_info, record. cbn [fst snd world trace].
  now rewrite <- app_assoc.
Qed.

(** A run of two chunks or more, by how its map phase ends.  When the
    map phase returns, every chunk has its summary and the reduce phase
    follows; when it raises, the run ends there, with the calls that
    were answered until then. *)
Lemma fan_out_run (text : str) (w : World) :
  2 <= length (split_text_into_chunks split_text text) ->
  (exists sums s1,
      length sums = length (split_text_into_chunks split_text text)
      /\ trace s1
         = [ Logged (DocumentSplit
                       (length (split_text_into_chunks split_text text)));
             Logged (MapReduce
                       (length (split_text_into_chunks split_text text))) ]
           ++ invocations
                (map map_messages (split_text_into_chunks split_text text))
                (map Content sums)
      /\ summarize_text ainvoke next_done split_text text (start Exn w)
         = reduce_phase ainvoke next_done sums s1)
  \/ (exists e seen s1,
        length seen = length (split_text_into_chunks split_text text)
        /\ trace s1
           = [ Logged (DocumentSplit
                         (length (split_text_into_chunks split_text text)));
               Logged (MapReduce
                         (length (split_text_into_chunks split_text text))) ]
             ++ observed
                  (map map_messages
                     (split_text_into_chunks split_text text)) seen
        /\ errors (observed
                     (map map_messages
                        (split_text_into_chunks split_text text)) seen)
           = [e]
        /\ summarize_text ainvoke next_done split_text text (start Exn w)
           = (Raise e, s1)).
Proof.
  intros L. rewrite (summarize_text_fan_out text (start Exn w) L).
  unfold bind. cbn [start world trace app].
  set (chunks := split_text_into_chunks split_text text) in *.
  set (s0 := mkState w [Logged (DocumentSplit (length chunks));
                        Logged (MapReduce (length chunks))]).
  destruct (gather_calls ainvoke next_done map_messages chunks s0)
    as (seen & Ls & T & R).
  destruct (gather next_done _ s0) as [[sums|e|] s1] eqn:G;
    cbn [fst snd] in T, R; [| |contradiction].
  - left. exists sums, s1.
    apply gather_returns in G as [Lr Ht]. auto.
  - right. exists e, seen, s1. auto.
Qed.

(** The calls a loop makes, by the counts its passes log. *)
Lemma reduce_loop_calls fuel cs s cs' s' :
  length cs <= fuel ->
  reduce_loop ainvoke next_done fuel cs s = (Return cs', s') ->
  exists evs,
    trace s' = trace s ++ evs /\
    length (calls evs)
    = list_sum (map (fun m => ceil_div m max_summaries_per_reduce)
                    (passes evs)).
Proof.
  revert cs s. induction fuel as [|fuel IH]; intros cs s L H.
  - rewrite reduce_loop_done in H
      by (unfold max_summaries_per_reduce; lia).
    injection H as <- <-. exists []. now rewrite app_nil_r.
  - destruct (Nat.le_gt_cases (length cs) max_summaries_per_reduce)
      as [G|G].
    + rewrite reduce_loop_done in H by exact G.
      injection H as <- <-. exists []. now rewrite app_nil_r.
    + rewrite reduce_loop_step in H by exact G. unfold bind in H.
      destruct (reduce_pass ainvoke next_done cs s) as [[l|e|] s1] eqn:P;
        try discriminate.
      apply reduce_pass_returns in P as [Hl Ht1].
      assert (Hlt : ceil_div (length cs) max_summaries_per_reduce
                    < length cs)
        by (apply ceil_div_lt; unfold max_summaries_per_reduce in G; lia).
      apply IH in H; [|rewrite Hl, length_batches_of; lia].
      destruct H as (evs & Ht & Hc).
      eexists. split; [rewrite Ht, Ht1, <- app_assoc; reflexivity|].
      rewrite calls_app, passes_app. cbn [app calls passes].
      rewrite calls_invocations, passes_invocations.
      cbn [app map list_sum fold_right].
      rewrite length_app, length_combine, !length_map, Hl, Nat.min_id, Hc.
      now rewrite length_batches_of.
Qed.

(** The calls and the passes of a reduce phase that returns. *)
Lemma reduce_phase_calls cs s final s' :
  reduce_phase ainvoke next_done cs s = (Return final, s') ->
  exists evs last,
    trace s' = trace s ++ evs /\
    reduction_chain (length cs) (passes evs) last /\
    length (calls evs)
    = list_sum (map (fun m => ceil_div m max_summaries_per_reduce)
                    (passes evs)) + 1.
Proof.
  unfold reduce_phase, bind. intros H.
  destruct (reduce_loop ainvoke next_done (length cs) cs s)
    as [[l|e|] s1] eqn:E; try discriminate.
  destruct (reduce_loop_calls _ _ _ _ _ (le_n _) E) as (evs & Ht & Hc).
  destruct (reduce_loop_chain ainvoke next_done _ _ _ _ _ (le_n _) E)
    as (evs2 & Ht2 & _ & Hch).
  assert (evs2 = evs)
    by (rewrite Ht in Ht2; now apply app_inv_head in Ht2).
  subst evs2.
  unfold logger_info, record, _combine_summaries, llm_ainvoke in H.
  cbn [fst snd world trace] in H.
  destruct (ainvoke (reduce_messages l) (world s1)) as [response w].
  injection H as _ <-. cbn [trace].
  eexists. exists (length l).
  split; [rewrite Ht, <- !app_assoc; reflexivity|].
  rewrite calls_app, passes_app. cbn [calls passes app].
  rewrite app_nil_r, length_app, Hc. cbn [length]. auto.
Qed.




(** X1. A run never ends for want of fuel, and it returns a summary
    exactly when none of the calls it made to the model raised. *)
Theorem run_returns_iff_no_call_raised (text : str) (w : World) :
  fst (summarize_text ainvoke next_done split_text text (start Exn w))
  <> OutOfFuel
  /\ ((exists summary,
          fst (summarize_text ainvoke next_done split_text text
                 (start Exn w))
          = Return summary)
      <-> errors (trace (snd (summarize_text ainvoke next_done split_text
                                text (start Exn w)))) = []).
Proof.
  destruct (ensures_summarize_text ainvoke next_done split_text text
              (start Exn w)) as (evs & Ht & Hr).
  cbn [start trace app] in Ht. rewrite Ht.
  destruct (fst (summarize_text ainvoke next_done split_text text
                   (start Exn w))) as [a|e|].
  - split; [discriminate|]. split; [intros _; apply Hr|].
    intros _. now exists a.
  - split; [discriminate|]. split.
    + intros [summary H]. discriminate H.
    + intros E. rewrite E in Hr. discriminate Hr.
  - contradiction.
Qed.

(** X2. With two chunks or more, the reduce phase waits for the whole
    map phase: once a pass of the loop or the final step is logged, the
    calls of the run start with one answered map call per chunk, in
    the order of the chunks, and none of them has raised. *)
Theorem reduce_waits_for_every_map_call (text : str) (w : World) :
  2 <= length (split_text_into_chunks split_text text) ->
  passes (trace (snd (summarize_text ainvoke next_done split_text text
                        (start Exn w)))) <> []
  \/ 0 < finals (trace (snd (summarize_text ainvoke next_done split_text
                               text (start Exn w)))) ->
  exists summaries rest,
    length summaries = length (split_text_into_chunks split_text text)
    /\ calls (trace (snd (summarize_text ainvoke next_done split_text text
                            (start Exn w))))
       = combine (map map_messages (split_text_into_chunks split_text text))
                 (map Content summaries)
         ++ rest.
Proof.
  intros L H.
  destruct (fan_out_run text w L)
    as [(sums & s1 & Ls & Ht1 & E) | (e & seen & s1 & Ls & Ht1 & He & E)];
    rewrite E in *.
  - destruct (ensures_reduce_phase ainvoke next_done sums s1)
      as (evs & Ht & _).
    exists sums, (calls evs). split; [exact Ls|].
    rewrite Ht, Ht1, !calls_app. cbn [calls app].
    now rewrite calls_invocations.
  - exfalso. cbn [snd] in H. rewrite Ht1, passes_app, finals_app in H.
    cbn [passes finals app] in H.
    rewrite passes_observed, finals_observed in H.
    destruct H as [H|H]; [now apply H | inversion H].
Qed.


(** X4. With two chunks or more, a run that returns has made one call
    per chunk, then for each pass of the loop a tenth, rounded up, of
    the count the pass logged, then one final call; the counts logged
    form the chain that starts from the number of chunks. *)
Theorem calls_of_a_run_that_returns
  (text : str) (w : World) (summary : str) :
  2 <= length (split_text_into_chunks split_text text) ->
  fst (summarize_text ainvoke next_done split_text text (start Exn w))
  = Return summary ->
  length (calls (trace (snd (summarize_text ainvoke next_done split_text
                               text (start Exn w)))))
  = length (split_text_into_chunks split_text text)
    + list_sum (map (fun m => ceil_div m max_summaries_per_reduce)
                    (passes (trace (snd (summarize_text ainvoke next_done
                                           split_text text
                                           (start Exn w))))))
    + 1
  /\ exists last,
       reduction_chain (length (split_text_into_chunks split_text text))
         (passes (trace (snd (summarize_text ainvoke next_done split_text
                                text (start Exn w)))))
         last.
Proof.
  intros L Hr.
  destruct (fan_out_run text w L)
    as [(sums & s1 & Ls & Ht1 & E) | (e & seen & s1 & _ & _ & _ & E)];
    rewrite E in *; [|discriminate Hr].
  destruct (reduce_phase ainvoke next_done sums s1) as [r s'] eqn:P.
  cbn [fst] in Hr. subst r.
  destruct (reduce_phase_calls _ _ _ _ P) as (evs & last & Ht & Hch & Hc).
  cbn [snd]. rewrite Ht, Ht1, !calls_app, !passes_app.
  cbn [calls passes]. rewrite calls_invocations, passes_invocations.
  cbn [app]. split.
  - rewrite length_app, length_combine, !length_map, Ls, Nat.min_id, Hc.
    lia.
  - exists last. now rewrite <- Ls.
Qed.

(** X5. With two to ten chunks, a run that returns has made one call
    per chunk, in the order of the chunks, and then one single combine
    call, on all the answers of the map calls in that same order; the
    loop makes no pass, and what the run returns is the answer of the
    combine call. *)
Theorem small_document_single_combine
  (text : str) (w : World) (final : str) :
  2 <= length (split_text_into_chunks split_text text) ->
  length (split_text_into_chunks split_text text)
  <= max_summaries_per_reduce ->
  fst (summarize_text ainvoke next_done split_text text (start Exn w))
  = Return final ->
  exists summaries,
    length summaries = length (split_text_into_chunks split_text text) /\
    calls (trace (snd (summarize_text ainvoke next_done split_text text
                         (start Exn w))))
    = combine (map map_messages (split_text_into_chunks split_text text))
              (map Content summaries)
      ++ [ (reduce_messages summaries, Content final) ] /\
    passes (trace (snd (summarize_text ainvoke next_done split_text text
                          (start Exn w)))) = [].
Proof.
  intros L Lmax Hr.
  destruct (fan_out_run text w L)
    as [(sums & s1 & Ls & Ht1 & E) | (e & seen & s1 & _ & _ & _ & E)];
    rewrite E in *; [|discriminate Hr].
  exists sums. split; [exact Ls|].
  unfold reduce_phase in Hr |- *.
  rewrite reduce_loop_done in Hr |- * by (rewrite Ls; exact Lmax).
  unfold ret, bind, logger_info, record, _combine_summaries, llm_ainvoke
    in Hr |- *.
  cbn [fst snd world trace] in Hr |- *.
  destruct (ainvoke (reduce_messages sums) (world s1)) as [[c|e] w2];
    cbn [fst snd result_of trace] in Hr |- *; [|discriminate Hr].
  injection Hr as ->.
  rewrite Ht1, !calls_app, !passes_app. cbn [calls passes app].
  rewrite calls_invocations, passes_invocations, app_nil_r.
  split; reflexivity.
Qed.

End Run.

End OrchestratorFacts.

(* ===================================================================== *)
(** ** The chunker: whitespace around the text *)
(* ===================================================================== *)

Module TrimFacts.

Import Chunker PyStrFacts ChunkerFacts.

Section WithSplitter.

Variable split_text : nat -> nat -> list str -> str -> list str.

(** The chunks of a text are decided by its trimmed form. *)
Lemma chunks_by_trimmed_text (text1 text2 : str) :
  strip text1 = strip text2 ->
  split_text_into_chunks split_text text1 =
  split_text_into_chunks split_text text2.
Proof.
  intros E.
  destruct (strip text1) as [|c r] eqn:E1.
  - rewrite (chunks_of_blank split_text text1 E1).
    now rewrite (chunks_of_blank split_text text2).
  - assert (N1 : strip text1 <> []) by (rewrite E1; discriminate).
    assert (N2 : strip text2 <> []) by (rewrite <- E; discriminate).
    unfold split_text_into_chunks.
    rewrite (nonblank_guard text1 N1), (nonblank_guard text2 N2).
    cbv zeta. now rewrite E1, <- E.
Qed.

(** X6. Whitespace before and after a text never changes its chunks,
    nor the count [get_chunk_count] gives. *)
Theorem chunks_ignore_surrounding_whitespace (pre text post : str) :
  forallb isspace pre = true ->
  forallb isspace post = true ->
  split_text_into_chunks split_text (pre ++ text ++ post)
  = split_text_into_chunks split_text text
  /\ get_chunk_count split_text (pre ++ text ++ post)
     = get_chunk_count split_text text.
Proof.
  intros Hpre Hpost.
  assert (E : split_text_into_chunks split_text (pre ++ text ++ post)
              = split_text_into_chunks split_text text)
    by (apply chunks_by_trimmed_text; now apply strip_blank_around).
  split; [exact E|]. unfold get_chunk_count. now rewrite E.
Qed.

(** X7. The chunk of a text that fits in one chunk is a fixed point of
    the chunker: chunked again, it comes back alone and unchanged, and
    [get_chunk_count] gives 1 for it. *)
Theorem single_chunk_is_a_fixed_point (text : str) :
  strip text <> [] ->
  length (strip text) <= CHUNK_SIZE ->
  exists chunk,
    split_text_into_chunks split_text text = [chunk] /\
    split_text_into_chunks split_text chunk = [chunk] /\
    get_chunk_count split_text chunk = 1.
Proof.
  intros H L. exists (strip text).
  assert (E : split_text_into_chunks split_text (strip text) = [strip text]).
  { rewrite (chunks_by_trimmed_text (strip text) text
               (strip_idempotent text)).
    now apply chunks_of_short. }
  split; [now apply chunks_of_short|]. split; [exact E|].
  unfold get_chunk_count. now rewrite E.
Qed.

End WithSplitter.

End TrimFacts.

(* ===================================================================== *)
(** ** The prompts *)
(* ===================================================================== *)

Module PromptFacts.

Import Chunker Summarizer SummarizerFacts.

Lemma length_join (sep : str) (parts : list str) :
  length (join sep parts)
  = list_sum (map (@length char) parts)
    + length sep * (length parts - 1).
Proof.
  induction parts as [|p parts IH]; [cbn; lia|].
  destruct parts as [|q parts].
  - cbn. lia.
  - change (join sep (p :: q :: parts))
      with (p ++ sep ++ join sep (q :: parts)).
    rewrite !length_app, IH. cbn [map list_sum fold_right length].
    rewrite !Nat.sub_succ, !Nat.sub_0_r, Nat.mul_succ_r. lia.
Qed.

Lemma list_sum_bounded (limit : nat) (parts : list str) :
  Forall (fun p => length p <= limit) parts ->
  list_sum (map (@length char) parts) <= length parts * limit.
Proof.
  induction 1 as [|p parts Hp _ IH]; unfold list_sum in *;
    cbn [map fold_right length Nat.mul]; lia.
Qed.

(** X8. The human message of a combine call is the fixed opening of 55
    characters and the summaries joined by the separator of 7
    characters; so a call on at most ten summaries of at most [limit]
    characters each sends at most [118 + 10 * limit] characters. *)
Theorem combine_prompt_is_bounded (summaries : list str) :
  exists human,
    reduce_messages summaries
    = [SystemMessage REDUCE_SYSTEM; HumanMessage human] /\
    length human
    = 55 + list_sum (map (@length char) summaries)
      + 7 * (length summaries - 1) /\
    forall limit,
      length summaries <= max_summaries_per_reduce ->
      Forall (fun s => length s <= limit) summaries ->
      length human <= 118 + 10 * limit.
Proof.
  eexists. split; [reflexivity|].
  assert (E : length
                (lit "Combine these section summaries into a final summary:"
                 ++ [nl; nl]
                 ++ join ([nl; nl] ++ lit "---" ++ [nl; nl]) summaries)
              = 55 + list_sum (map (@length char) summaries)
                + 7 * (length summaries - 1)).
  { rewrite !length_app, length_join.
    change (length (lit "Combine these section summaries into a final summary:"))
      with 53.
    change (length ([nl; nl] ++ lit "---" ++ [nl; nl])) with 7.
    cbn [length]. lia. }
  split; [exact E|].
  intros limit Hn Hl. rewrite E.
  pose proof (list_sum_bounded limit summaries Hl) as B.
  unfold max_summaries_per_reduce in Hn. nia.
Qed.

End PromptFacts.

(* ===================================================================== *)
(** ** The choice of the language model *)
(* ===================================================================== *)

Module FactoryFacts.

Import Factory.

Lemma str_eqb_eq (a b : str) : str_eqb a b = true <-> a = b.
Proof.
  revert b. induction a as [|x a IH]; intros [|y b]; cbn [str_eqb];
    try (split; [discriminate | discriminate]); [tauto|].
  rewrite andb_true_iff, N.eqb_eq, IH.
  split; [intros [-> ->]; reflexivity | intros E; now injection E].
Qed.

Section Settings.

Context {Float Limiter : Type}.

(** X9. [_create_llm] gives a chat model exactly when the provider is
    one of "openai", "gemini" and "ionet" and the key of that provider
    is set and not empty; the keys of the other providers play no part.
    In every other case it raises a [ValueError]. *)
Theorem create_llm_succeeds_iff
  (cfg : settings Float) (rate_limiter : Limiter) :
  (exists m, _create_llm cfg rate_limiter = inr m)
  <-> (LLM_PROVIDER cfg = lit "openai"
       /\ exists c key, OPENAI_API_KEY cfg = Some (c :: key))
      \/ (LLM_PROVIDER cfg = lit "gemini"
          /\ exists c key, GOOGLE_API_KEY cfg = Some (c :: key))
      \/ (LLM_PROVIDER cfg = lit "ionet"
          /\ exists c key, IONET_API_KEY cfg = Some (c :: key)).
Proof.
  unfold _create_llm.
  destruct (str_eqb (LLM_PROVIDER cfg) (lit "openai")) eqn:E1.
  { apply str_eqb_eq in E1. split.
    - intros [m H]. left. split; [exact E1|].
      destruct (OPENAI_API_KEY cfg) as [[|c key]|]; try discriminate H.
      now exists c, key.
    - intros [[_ (c & key & ->)] | [[E _] | [E _]]];
        [now eexists | rewrite E in E1; discriminate E1
         | rewrite E in E1; discriminate E1]. }
  destruct (str_eqb (LLM_PROVIDER cfg) (lit "gemini")) eqn:E2.
  { apply str_eqb_eq in E2. split.
    - intros [m H]. right. left. split; [exact E2|].
      destruct (GOOGLE_API_KEY cfg) as [[|c key]|]; try discriminate H.
      now exists c, key.
    - intros [[E _] | [[_ (c & key & ->)] | [E _]]];
        [rewrite E in E2; discriminate E2 | now eexists
         | rewrite E in E2; discriminate E2]. }
  destruct (str_eqb (LLM_PROVIDER cfg) (lit "ionet")) eqn:E3.
  { apply str_eqb_eq in E3. split.
    - intros [m H]. right. right. split; [exact E3|].
      destruct (IONET_API_KEY cfg) as [[|c key]|]; try discriminate H.
      now exists c, key.
    - intros [[E _] | [[E _] | [_ (c & key & ->)]]];
        [rewrite E in E3; discriminate E3
         | rewrite E in E3; discriminate E3 | now eexists]. }
  split.
  - intros [m H]. discriminate H.
  - intros [[E _] | [[E _] | [E _]]]; apply str_eqb_eq in E; congruence.
Qed.

(** X10. Whatever the provider, a chat model that [_create_llm] gives
    is throttled by the shared rate limiter, has the temperature and
    the token limit of the settings, and holds the key of the provider
    the settings name, which is not empty. *)
Theorem created_llm_is_throttled_and_keyed
  (cfg : settings Float) (rate_limiter : Limiter)
  (m : chat_model Float Limiter) :
  _create_llm cfg rate_limiter = inr m ->
  rate_limiter_of m = rate_limiter
  /\ temperature_of m = LLM_TEMPERATURE cfg
  /\ max_tokens_of m = LLM_MAX_TOKENS cfg
  /\ provider_key cfg = Some (key_of m)
  /\ key_of m <> [].
Proof.
  unfold _create_llm, provider_key.
  destruct (str_eqb (LLM_PROVIDER cfg) (lit "openai")).
  { destruct (OPENAI_API_KEY cfg) as [[|c key]|]; intros H;
      try discriminate H.
    injection H as <-. cbn. repeat split. discriminate. }
  destruct (str_eqb (LLM_PROVIDER cfg) (lit "gemini")).
  { destruct (GOOGLE_API_KEY cfg) as [[|c key]|]; intros H;
      try discriminate H.
    injection H as <-. cbn. repeat split. discriminate. }
  destruct (str_eqb (LLM_PROVIDER cfg) (lit "ionet")).
  { destruct (IONET_API_KEY cfg) as [[|c key]|]; intros H;
      try discriminate H.
    injection H as <-. cbn. repeat split. discriminate. }
  intros H. discriminate H.
Qed.

End Settings.

End FactoryFacts.

(* ===================================================================== *)
(** ** The extraction of the text of a PDF *)
(* ===================================================================== *)

Module PdfParserFacts.

Import PdfParser PyStrFacts.

Lemma text_parts_nonempty (page_num : nat) (ps : list page) :
  Forall (fun part => part <> []) (text_parts page_num ps).
Proof.
  revert page_num. induction ps as [|p ps IH]; intros page_num;
    cbn [text_parts]; [constructor|].
  apply Forall_app. split; [|apply IH].
  destruct (truthy (page_text p)); constructor; [|constructor].
  unfold page_section. discriminate.
Qed.

Lemma text_parts_nil (page_num : nat) (ps : list page) :
  text_parts page_num ps = []
  <-> Forall (fun p => page_text p = []) ps.
Proof.
  revert page_num. induction ps as [|p ps IH]; intros page_num;
    cbn [text_parts].
  - split; [constructor | reflexivity].
  - split.
    + intros H. apply app_eq_nil in H as [H1 H2].
      constructor; [|now apply (IH (S page_num))].
      destruct (page_text p); [reflexivity | discriminate H1].
    + intros H. inversion H as [|? ? Hp Hps]; subst.
      rewrite Hp. cbn [truthy app]. now apply IH.
Qed.

Lemma join_nil (sep : str) (parts : list str) :
  Forall (fun part => part <> []) parts ->
  join sep parts = [] <-> parts = [].
Proof.
  intros H. destruct H as [|p parts Hp _]; [tauto|].
  split; [|discriminate]. intros E. exfalso.
  destruct parts as [|q parts]; cbn [join] in E; [contradiction|].
  apply app_eq_nil in E as [E _]. contradiction.
Qed.

(** X11. [extract_text_from_pdf] raises exactly when the PDF has more
    than [MAX_PAGES] pages.  Otherwise the text it returns is never
    shorter than the trimmed markdown text: it is the markdown text as
    it is, or the text of the OCR pass, and this one only when the
    trimmed markdown text has fewer than 50 characters per page and the
    OCR text is longer than it. *)
Theorem extracted_text_is_never_shorter (MAX_PAGES : Z) (doc : document) :
  match extract_text_from_pdf MAX_PAGES doc with
  | inl _ => (MAX_PAGES < Z.of_nat (get_page_count doc))%Z
  | inr text =>
      (Z.of_nat (get_page_count doc) <= MAX_PAGES)%Z
      /\ length (strip (to_markdown doc)) <= length text
      /\ (text = to_markdown doc
          \/ (text = _extract_with_ocr doc
              /\ length (strip (to_markdown doc))
                 < get_page_count doc * MIN_TEXT_PER_PAGE
              /\ length (strip (to_markdown doc))
                 < length (_extract_with_ocr doc)))
  end.
Proof.
  unfold extract_text_from_pdf. cbv zeta.
  destruct (Z.ltb_spec MAX_PAGES (Z.of_nat (get_page_count doc)))
    as [G|G]; [exact G|].
  pose proof (length_strip (to_markdown doc)) as Hs.
  destruct (Nat.ltb_spec (length (strip (to_markdown doc)))
              (get_page_count doc * MIN_TEXT_PER_PAGE)) as [L|L].
  - destruct (Nat.ltb_spec (length (strip (to_markdown doc)))
                (length (_extract_with_ocr doc))) as [O|O].
    + split; [exact G|]. split; [lia|]. right. auto.
    + split; [exact G|]. split; [exact Hs|]. now left.
  - split; [exact G|]. split; [exact Hs|]. now left.
Qed.

(** X12. The text of the OCR pass is empty exactly when no page has any
    text left, neither from the page itself nor from the OCR. *)
Theorem ocr_text_is_empty_iff (doc : document) :
  _extract_with_ocr doc = []
  <-> Forall (fun p => page_text p = []) (pages doc).
Proof.
  unfold _extract_with_ocr.
  rewrite (join_nil [nl; nl] _ (text_parts_nonempty 0 (pages doc))).
  apply text_parts_nil.
Qed.

Lemma text_parts_sections (start : nat) (ps : list page) (part : str) :
  In part (text_parts start ps)
  <-> exists i p,
        nth_error ps i = Some p /\ page_text p <> [] /\
        part = page_section (start + i) (page_text p).
Proof.
  revert start. induction ps as [|p ps IH]; intros start;
    cbn [text_parts].
  - split; [contradiction|]. intros (i & q & H & _).
    destruct i; discriminate H.
  - rewrite in_app_iff, (IH (S start)). split.
    + intros [H | (i & q & Hn & Hq & ->)].
      * exists 0, p. rewrite Nat.add_0_r.
        destruct (page_text p) as [|c r] eqn:E; [contradiction|].
        cbn [truthy] in H. destruct H as [<- | []].
        split; [reflexivity|]. split; [discriminate | reflexivity].
      * exists (S i), q. split; [exact Hn|]. split; [exact Hq|].
        f_equal. lia.
    + intros (i & q & Hn & Hq & ->). destruct i as [|i].
      * left. cbn in Hn. injection Hn as ->. rewrite Nat.add_0_r.
        destruct (page_text q); [contradiction | now left].
      * right. exists i, q. split; [exact Hn|]. split; [exact Hq|].
        f_equal. lia.
Qed.

(** X13. The sections the OCR pass joins are those of the pages that
    have text, each under the number of its page in the PDF, counted
    from 1, whatever pages before it were left out. *)
Theorem ocr_sections_keep_page_numbers (doc : document) (part : str) :
  In part (text_parts 0 (pages doc))
  <-> exists i p,
        nth_error (pages doc) i = Some p /\ page_text p <> [] /\
        part = lit "## Page " ++ str_of_int (Z.of_nat i + 1)
               ++ [nl; nl] ++ page_text p.
Proof.
  rewrite text_parts_sections. unfold page_section. reflexivity.
Qed.

End PdfParserFacts.

(* ===================================================================== *)
(** ** The upload *)
(* ===================================================================== *)

Module MainFacts.

Import Chunker Summarizer Factory PdfParser Main.
Import PyStrFacts SummarizerFacts FactoryFacts.



Section Server.

Context {World Exn : Type}.
Variable ainvoke : list message -> World -> outcome Exn * World.
Variable next_done : World -> nat -> nat.
Variable split_text : nat -> nat -> list str -> str -> list str.
Variable MAX_FILE_SIZE_MB : Z.
Variable MAX_PAGES : Z.
Variable suffix_lower : str -> str.
Variable uuid4 : World -> str * World.
Variable upload_path : str -> str.
Variable read_pdf : bytes -> World -> (Exn + document) * World.
Variable db_save : str -> str -> str -> World -> (Exn + Document) * World.
Variable str_of_exn : Exn -> str.
Variable str_of_http : nat -> str -> str.

(** The handler and its [try] block, of the collaborators above. *)
Let upload :=
  upload_pdf ainvoke next_done split_text MAX_FILE_SIZE_MB MAX_PAGES
    suffix_lower uuid4 upload_path read_pdf db_save str_of_exn str_of_http.

Let attempt :=
  try_block ainvoke next_done split_text MAX_PAGES read_pdf db_save.

Let new_path :=
  saved_path (World:=World) (Exn:=Exn) suffix_lower uuid4 upload_path.



(** X15. A PDF that is accepted and whose extracted text is blank is
    answered with status 500, not 400: the [HTTPException] of status
    400 that the [try] block raises for it is caught by its own
    [except Exception] clause.  Nothing is done after the PDF was read:
    no call is made to the model and none to the database. *)
Theorem blank_pdf_is_answered_500
  (name : str) (content : bytes) (st : server World Exn)
  (doc : document) (text : str) (w : World) :
  existsb (str_eqb (suffix_lower name)) ALLOWED_EXTENSIONS = true ->
  (Z.of_nat (length content) <= MAX_FILE_SIZE MAX_FILE_SIZE_MB)%Z ->
  read_pdf content (snd (uuid4 (world (session st)))) = (inr doc, w) ->
  extract_text_from_pdf MAX_PAGES doc = inr text ->
  strip text = [] ->
  fst (upload name content st)
  = HTTPException 500
      (str_of_http 400 (lit "Could not extract text from PDF"))
  /\ session (snd (upload name content st))
     = mkState w (trace (session st)).
Proof.
  intros Hext Hsize Hread Hx Hblank.
  unfold upload, upload_pdf. rewrite Hext. cbn [negb].
  apply Z.ltb_ge in Hsize. rewrite Hsize.
  destruct (uuid4 (world (session st))) as [uuid w1]. cbn [snd] in Hread.
  unfold try_block. cbn [session world trace files].
  rewrite Hread, Hx, Hblank. cbn. auto.
Qed.

(** X16. Status 400 is answered in three cases and no other: the
    extension is not ".pdf", the file is larger than [MAX_FILE_SIZE],
    or the PDF has too many pages; the detail is then the message of
    that case. *)
Theorem status_400_iff
  (name : str) (content : bytes) (st : server World Exn) (detail : str) :
  fst (upload name content st) = HTTPException 400 detail
  <-> (existsb (str_eqb (suffix_lower name)) ALLOWED_EXTENSIONS = false
       /\ detail = lit "Only PDF files are allowed")
      \/ (existsb (str_eqb (suffix_lower name)) ALLOWED_EXTENSIONS = true
          /\ (MAX_FILE_SIZE MAX_FILE_SIZE_MB < Z.of_nat (length content))%Z
          /\ detail = lit "File size exceeds 50MB limit")
      \/ (existsb (str_eqb (suffix_lower name)) ALLOWED_EXTENSIONS = true
          /\ (Z.of_nat (length content) <= MAX_FILE_SIZE MAX_FILE_SIZE_MB)%Z
          /\ exists doc,
               fst (read_pdf content (snd (uuid4 (world (session st)))))
               = inr doc
               /\ extract_text_from_pdf MAX_PAGES doc
                  = inl (PDFTooManyPagesError detail)).
Proof.
  unfold upload, upload_pdf.
  destruct (existsb (str_eqb (suffix_lower name)) ALLOWED_EXTENSIONS)
    eqn:Hext; cbn [negb].
  2:{ cbn [fst]. split.
      - intros H. injection H as <-. left. auto.
      - intros [[_ ->] | [[H _] | [H _]]];
          [reflexivity | discriminate H | discriminate H]. }
  destruct (Z.ltb_spec (MAX_FILE_SIZE MAX_FILE_SIZE_MB)
              (Z.of_nat (length content))) as [Hsize|Hsize].
  { cbn [fst]. split.
    - intros H. injection H as <-. right. left. auto.
    - intros [[H _] | [[_ [_ ->]] | [_ [H _]]]];
        [discriminate H | reflexivity | lia]. }
  destruct (uuid4 (world (session st))) as [uuid w1]. cbn [snd].
  unfold try_block. cbn [session world trace files].
  destruct (read_pdf content w1) as [[e|doc] w2]; cbn [fst].
  { split; [intros H; discriminate H|].
    intros [[H _] | [[_ [H _]] | [_ [_ (doc & H & _)]]]];
      [discriminate H | lia | discriminate H]. }
  destruct (extract_text_from_pdf MAX_PAGES doc) as [[message]|text] eqn:Hx.
  { cbn [fst]. split.
    - intros H. injection H as <-. right. right.
      split; [reflexivity|]. split; [exact Hsize|]. now exists doc.
    - intros [[H _] | [[_ [H _]] | [_ [_ (doc' & H & H')]]]];
        [discriminate H | lia |].
      injection H as <-. rewrite Hx in H'. now injection H' as ->. }
  assert (No : forall r : response * server World Exn,
             (forall d, fst r <> HTTPException 400 d) ->
             fst r = HTTPException 400 detail <->
             (true = false /\ detail = lit "Only PDF files are allowed")
             \/ (true = true
                 /\ (MAX_FILE_SIZE MAX_FILE_SIZE_MB
                     < Z.of_nat (length content))%Z
                 /\ detail = lit "File size exceeds 50MB limit")
             \/ (true = true
                 /\ (Z.of_nat (length content)
                     <= MAX_FILE_SIZE MAX_FILE_SIZE_MB)%Z
                 /\ exists doc0 : document,
                      @inr Exn document doc = inr doc0 /\
                      extract_text_from_pdf MAX_PAGES doc0
                      = inl (PDFTooManyPagesError detail))).
  { intros r Hr. split; [intros H; now apply Hr in H|].
    intros [[H _] | [[_ [H _]] | [_ [_ (doc' & H & H')]]]];
      [discriminate H | lia |].
    injection H as <-. rewrite Hx in H'. discriminate H'. }
  destruct (negb (truthy (strip text))).
  { apply No. cbn. intros d H. discriminate H. }
  destruct (summarize_text ainvoke next_done split_text text
              (mkState w2 (trace (session st)))) as [[sm|e|] s2].
  - destruct (db_save name (upload_path (uuid ++ suffix_lower name)) sm
                (world s2)) as [[e|d] w3];
      apply No; cbn; intros d' H; discriminate H.
  - apply No. cbn. intros d H. discriminate H.
  - apply No. cbn. intros d H. discriminate H.
Qed.

(** X17. An upload is answered with a summary only when the file was
    accepted, the PDF could be read, its extracted text is not blank,
    [summarize_text] returned on that text and the database took the
    row.  The row handed to the database holds the name of the upload,
    the path its file was saved at and the summary [summarize_text]
    returned, and the answer is read off the row the database gave
    back. *)
Theorem upload_answer_is_the_saved_row
  (name : str) (content : bytes) (st : server World Exn)
  (i : Z) (n sm c : str) :
  fst (upload name content st) = Uploaded i n sm c ->
  existsb (str_eqb (suffix_lower name)) ALLOWED_EXTENSIONS = true
  /\ (Z.of_nat (length content) <= MAX_FILE_SIZE MAX_FILE_SIZE_MB)%Z
  /\ exists doc text summary_text row,
       fst (read_pdf content (snd (uuid4 (world (session st))))) = inr doc
       /\ extract_text_from_pdf MAX_PAGES doc = inr text
       /\ strip text <> []
       /\ fst (summarize_text ainvoke next_done split_text text
                 (mkState
                    (snd (read_pdf content
                            (snd (uuid4 (world (session st))))))
                    (trace (session st))))
          = Return summary_text
       /\ fst (db_save name (new_path name st) summary_text
                 (world
                    (snd (summarize_text ainvoke next_done split_text text
                            (mkState
                               (snd (read_pdf content
                                       (snd (uuid4 (world (session st))))))
                               (trace (session st)))))))
          = inr row
       /\ i = id row /\ n = filename row
       /\ sm = summary row /\ c = created_at row.
Proof.
  unfold upload, upload_pdf, new_path, saved_path.
  destruct (existsb (str_eqb (suffix_lower name)) ALLOWED_EXTENSIONS)
    eqn:Hext; cbn [negb]; [|intros H; discriminate H].
  destruct (Z.ltb_spec (MAX_FILE_SIZE MAX_FILE_SIZE_MB)
              (Z.of_nat (length content))) as [Hsize|Hsize];
    [intros H; discriminate H|].
  destruct (uuid4 (world (session st))) as [uuid w1]. cbn [fst snd].
  unfold try_block. cbn [session world trace files].
  destruct (read_pdf content w1) as [[e|doc] w2]; cbn [fst snd];
    [intros H; discriminate H|].
  destruct (extract_text_from_pdf MAX_PAGES doc) as [[message]|text] eqn:Hx;
    [intros H; discriminate H|].
  destruct (strip text) as [|ch r] eqn:Hs; cbn [truthy negb];
    [intros H; discriminate H|].
  cbn [session].
  destruct (summarize_text ainvoke next_done split_text text
              (mkState w2 (trace (session st)))) as [[sm'|e|] s2] eqn:Hsum;
    [|intros H; discriminate H|intros H; discriminate H].
  destruct (db_save name (upload_path (uuid ++ suffix_lower name)) sm'
              (world s2)) as [[e|row] w3] eqn:Hdb;
    [intros H; discriminate H|].
  cbn [fst]. intros H. injection H as <- <- <- <-.
  split; [reflexivity|]. split; [exact Hsize|].
  exists doc, text, sm', row.
  split; [reflexivity|]. split; [exact Hx|].
  split; [rewrite Hs; discriminate|].
  rewrite Hsum. cbn [fst snd]. rewrite Hdb. cbn [fst]. auto 10.
Qed.

End Server.

End MainFacts.


(* ===================================================================== *)
(** ** Runs of the doubles, for the facts above *)
(* ===================================================================== *)

Module MoreRuns.

Import PyStr Chunker Summarizer Doubles Factory PdfParser Main
  UploadDoubles.
Import OrchestratorFacts TrimFacts FactoryFacts MainFacts.

Lemma reduce_waits_for_every_map_call_witness :
  exists summaries rest,
    length summaries
    = length (split_text_into_chunks recursive_split_text (paragraphs 2))
    /\ calls (trace (snd (summarize_text steady_llm last_first
                            recursive_split_text (paragraphs 2)
                            (start nat 0))))
       = combine (map map_messages
                    (split_text_into_chunks recursive_split_text
                       (paragraphs 2)))
                 (map Content summaries)
         ++ rest.
Proof.
  apply (reduce_waits_for_every_map_call steady_llm last_first
           recursive_split_text (paragraphs 2) 0).
  - apply Nat.leb_le. vm_compute. reflexivity.
  - right. apply Nat.ltb_lt. vm_compute. reflexivity.
Defined.


(** Eleven chunks: the loop makes one pass, of two batches. *)
Lemma calls_of_a_run_that_returns_witness :
  length (calls (trace (snd (summarize_text steady_llm last_first
                               recursive_split_text (paragraphs 11)
                               (start nat 0)))))
  = length (split_text_into_chunks recursive_split_text (paragraphs 11))
    + list_sum (map (fun m => ceil_div m max_summaries_per_reduce)
                    (passes (trace (snd (summarize_text steady_llm
                                           last_first recursive_split_text
                                           (paragraphs 11)
                                           (start nat 0))))))
    + 1
  /\ exists last,
       reduction_chain
         (length (split_text_into_chunks recursive_split_text
                    (paragraphs 11)))
         (passes (trace (snd (summarize_text steady_llm last_first
                                recursive_split_text (paragraphs 11)
                                (start nat 0)))))
         last.
Proof.
  apply (calls_of_a_run_that_returns steady_llm last_first
           recursive_split_text (paragraphs 11) 0 (lit "summary")).
  - apply Nat.leb_le. vm_compute. reflexivity.
  - vm_compute. reflexivity.
Defined.

Lemma small_document_single_combine_witness :
  exists summaries,
    length summaries
    = length (split_text_into_chunks recursive_split_text (paragraphs 2)) /\
    calls (trace (snd (summarize_text steady_llm in_turn recursive_split_text
                         (paragraphs 2) (start nat 0))))
    = combine (map map_messages
                 (split_text_into_chunks recursive_split_text (paragraphs 2)))
              (map Content summaries)
      ++ [ (reduce_messages summaries, Content (lit "summary")) ] /\
    passes (trace (snd (summarize_text steady_llm in_turn recursive_split_text
                          (paragraphs 2) (start nat 0)))) = [].
Proof.
  apply (small_document_single_combine steady_llm in_turn
           recursive_split_text
           (paragraphs 2) 0 (lit "summary")).
  - apply Nat.leb_le. vm_compute. reflexivity.
  - apply Nat.leb_le. vm_compute. reflexivity.
  - vm_compute. reflexivity.
Defined.

Lemma chunks_ignore_surrounding_whitespace_witness :
  split_text_into_chunks recursive_split_text
    ([32; 10]%N ++ lit "Hello world" ++ [9]%N)
  = split_text_into_chunks recursive_split_text (lit "Hello world")
  /\ get_chunk_count recursive_split_text
       ([32; 10]%N ++ lit "Hello world" ++ [9]%N)
     = get_chunk_count recursive_split_text (lit "Hello world").
Proof.
  apply (chunks_ignore_surrounding_whitespace recursive_split_text
           [32; 10]%N (lit "Hello world") [9]%N).
  - vm_compute. reflexivity.
  - vm_compute. reflexivity.
Defined.

Lemma single_chunk_is_a_fixed_point_witness :
  exists chunk,
    split_text_into_chunks recursive_split_text (lit "  Hello world ")
    = [chunk] /\
    split_text_into_chunks recursive_split_text chunk = [chunk] /\
    get_chunk_count recursive_split_text chunk = 1.
Proof.
  apply (single_chunk_is_a_fixed_point recursive_split_text
           (lit "  Hello world ")).
  - vm_compute. discriminate.
  - apply Nat.leb_le. vm_compute. reflexivity.
Defined.

Lemma created_llm_is_throttled_and_keyed_witness :
  rate_limiter_of
    (ChatGoogleGenerativeAI (lit "gemini-2.0-flash") (lit "secret")
       (lit "0.3") 1500 tt) = tt
  /\ temperature_of
       (ChatGoogleGenerativeAI (lit "gemini-2.0-flash") (lit "secret")
          (lit "0.3") 1500 tt) = LLM_TEMPERATURE gemini_settings
  /\ max_tokens_of
       (ChatGoogleGenerativeAI (lit "gemini-2.0-flash") (lit "secret")
          (lit "0.3") 1500 tt) = LLM_MAX_TOKENS gemini_settings
  /\ provider_key gemini_settings
     = Some (key_of
               (ChatGoogleGenerativeAI (lit "gemini-2.0-flash")
                  (lit "secret") (lit "0.3") 1500 tt))
  /\ key_of
       (ChatGoogleGenerativeAI (lit "gemini-2.0-flash") (lit "secret")
          (lit "0.3") 1500 tt) <> [].
Proof.
  apply (created_llm_is_throttled_and_keyed gemini_settings tt
           (ChatGoogleGenerativeAI (lit "gemini-2.0-flash") (lit "secret")
              (lit "0.3") 1500 tt)).
  vm_compute. reflexivity.
Defined.

Lemma blank_pdf_is_answered_500_witness :
  fst (upload_pdf steady_llm in_turn recursive_split_text 50 100 suffix_lower
         uuid4 upload_path (reads blank_scan) db_save str_of_exn
         str_of_http (lit "scan.PDF") [] fresh)
  = HTTPException 500
      (str_of_http 400 (lit "Could not extract text from PDF"))
  /\ session
       (snd (upload_pdf steady_llm in_turn recursive_split_text 50 100
               suffix_lower uuid4 upload_path (reads blank_scan) db_save
               str_of_exn str_of_http (lit "scan.PDF") [] fresh))
     = mkState 0 (trace (session fresh)).
Proof.
  apply (blank_pdf_is_answered_500 steady_llm in_turn
           recursive_split_text 50 100
           suffix_lower uuid4 upload_path (reads blank_scan) db_save
           str_of_exn str_of_http (lit "scan.PDF") [] fresh
           blank_scan [32; 10; 32]%N 0).
  - vm_compute. reflexivity.
  - vm_compute. discriminate.
  - vm_compute. reflexivity.
  - vm_compute. reflexivity.
  - vm_compute. reflexivity.
Defined.

Lemma upload_answer_is_the_saved_row_witness :
  existsb (str_eqb (suffix_lower (lit "notes.pdf"))) ALLOWED_EXTENSIONS
  = true
  /\ (Z.of_nat (length (@nil Byte.byte)) <= MAX_FILE_SIZE 50)%Z
  /\ exists doc text summary_text row,
       fst (reads one_page [] (snd (uuid4 (world (session fresh)))))
       = inr doc
       /\ extract_text_from_pdf 100 doc = inr text
       /\ strip text <> []
       /\ fst (summarize_text steady_llm in_turn recursive_split_text text
                 (mkState
                    (snd (reads one_page []
                            (snd (uuid4 (world (session fresh))))))
                    (trace (session fresh))))
          = Return summary_text
       /\ fst (db_save (lit "notes.pdf")
                 (saved_path suffix_lower uuid4 upload_path
                    (lit "notes.pdf") fresh)
                 summary_text
                 (world
                    (snd (summarize_text steady_llm in_turn recursive_split_text
                            text
                            (mkState
                               (snd (reads one_page []
                                       (snd (uuid4
                                               (world (session fresh))))))
                               (trace (session fresh)))))))
          = inr row
       /\ 1%Z = id row /\ lit "notes.pdf" = filename row
       /\ lit "summary" = summary row
       /\ lit "2024-05-01T12:00:00" = created_at row.
Proof.
  apply (upload_answer_is_the_saved_row steady_llm in_turn
           recursive_split_text
           50 100 suffix_lower uuid4 upload_path (reads one_page) db_save
           str_of_exn str_of_http (lit "notes.pdf") [] fresh
           1%Z (lit "notes.pdf") (lit "summary")
           (lit "2024-05-01T12:00:00")).
  vm_compute. reflexivity.
Defined.

End MoreRuns.

